(** * D2Q9 Lattice-Boltzmann solver ([lbm_solver.py]): model and properties

    The solver threads one array, the distribution field of shape
    [(Nx, Ny, 9)], through [update].  Arrays are modelled as nested lists
    indexed [f !! x !! y !! q]; every array primitive the source uses
    ([.at[...].set], integer/slice/index-array/boolean-mask indexing,
    [jnp.roll], [jnp.sum], [jnp.einsum], broadcasting arithmetic) gets a list
    definition, and [update] is the composition of these in source order.

    The source computes in floating point.  The stage definitions are kept
    generic over an arithmetic interface [Arith], so that every statement
    about which entry is read or written holds for any interpretation of
    [+ - * /]; the algebraic statements are proved at the instance of exact
    rationals [Qc].

    The constants enter with the values the program holds, which are
    rationals: the weight table as binary32 numbers (it is built when the
    module is loaded, before [main] switches JAX to 64 bits), the inflow
    speed as a binary64 number.  The scalar setup of lines 49-50 is plain
    Python [float] arithmetic and is computed in binary64, operation by
    operation. *)

From Stdlib Require Import ZArith QArith Qcanon Reals Lra Lia Ascii.
From Corelib Require Import SpecFloat.
From stdpp Require Import base numbers list strings pretty.

Open Scope Z_scope.
Open Scope nat_scope.

(** ** Arithmetic interface *)

Class Arith (num : Type) := {
  ofQ : Q → num;
  fadd : num → num → num;
  fsub : num → num → num;
  fmul : num → num → num;
  fdiv : num → num → num
}.

#[global] Instance Qc_arith : Arith Qc := {|
  ofQ := Q2Qc;
  fadd := Qcplus;
  fsub := Qcminus;
  fmul := Qcmult;
  fdiv := Qcdiv
|}.

(** Out-of-range reads do not occur on well-shaped arrays; the total lookup
    [!!!] needs some default all the same. *)
#[global] Instance num_inhabited {num : Type} `{Arith num} : Inhabited num :=
  populate (ofQ 0).

(** ** Floating point

    IEEE 754 numbers and their operations, rounding to nearest with ties to
    even, are those of the Standard Library's [SpecFloat]: binary64 (Python's
    [float], and JAX arrays once [jax_enable_x64] is set) has 53 bits of
    precision and exponents below 1024, binary32 (JAX's default) 24 bits
    and exponents below 128. *)

Definition b64_add : spec_float → spec_float → spec_float := SFadd 53 1024.
Definition b64_mul : spec_float → spec_float → spec_float := SFmul 53 1024.
Definition b64_div : spec_float → spec_float → spec_float := SFdiv 53 1024.

(** The binary64 number nearest to a rational: the value Python gives a
    decimal literal, an [int] operand of a [float] operation, and the
    quotient [a / b] of two [int]s. *)
Definition b64_of_Q (q : Q) : spec_float :=
  match Qnum q with
  | Z0 => S754_zero false
  | Zpos n =>
      b64_div (S754_finite false n 0) (S754_finite false (Qden q) 0)
  | Zneg n =>
      b64_div (S754_finite true n 0) (S754_finite false (Qden q) 0)
  end.

Definition b64_of_Z (z : Z) : spec_float := b64_of_Q (inject_Z z).

(** A binary64 number stored in a binary32 array. *)
Definition b32_of_b64 (x : spec_float) : spec_float :=
  match x with
  | S754_finite s m e => binary_round 24 128 s m e
  | _ => x
  end.

Definition is_finite (x : spec_float) : bool :=
  match x with
  | S754_zero _ | S754_finite _ _ _ => true
  | S754_infinity _ | S754_nan => false
  end.

(** The rational a finite number stands for (0 on the infinities and NaN,
    which stand for none). *)
Definition SF2Q (x : spec_float) : Q :=
  match x with
  | S754_finite s m e => inject_Z (cond_Zopp s (Zpos m)) * Qpower 2 e
  | _ => 0
  end%Q.

(** [jnp.array([a/b, ...])] under JAX's default 32 bits: Python evaluates
    [a/b] in binary64, the array stores it as binary32. *)
Definition float32_entry (a b : Z) : Q :=
  SF2Q (b32_of_b64 (b64_of_Q (Qmake a (Z.to_pos b)))).

(** [1 + 2^-27]: the factor by which binary32 rounding enlarges each of
    [4/9], [1/9] and [1/36] (see [lattice_constants]). *)
Definition float32_excess : Qc := Q2Qc (134217729 # 134217728).

(** ** Array primitives *)

Section Arrays.
Context {A : Type}.

(** Python index normalisation on an axis of length [n]: [-1] is the last
    entry. *)
Definition norm_index (n : nat) (i : Z) : nat :=
  Z.to_nat (if (i <? 0)%Z then (i + Z.of_nat n)%Z else i).

(** [a[1:-1]] *)
Definition inner_rows (a : list A) : list A :=
  take (length a - 2) (drop 1 a).

(** [a.at[1:-1].set(vals)] *)
Definition set_inner_rows (a vals : list A) : list A :=
  take 1 a ++ vals ++ drop (1 + length vals) a.

(** [jnp.roll(a, s)] along the outer axis: the last [s mod n] entries move
    to the front. *)
Definition roll (s : Z) (a : list A) : list A :=
  let n := length a in
  let k := Z.to_nat (s mod Z.of_nat n) in
  drop (n - k) a ++ take (n - k) a.

(** [a[m]] for a boolean mask [m] over a one-dimensional [a]. *)
Fixpoint mask_select (m : list bool) (a : list A) : list A :=
  match m, a with
  | b :: m', v :: a' =>
      if b then v :: mask_select m' a' else mask_select m' a'
  | _, _ => []
  end.
End Arrays.

(** ** Lattice constants *)

Definition N_DISCRETE_VELOCITIES : nat := 9.

Definition LATTICE_VELOCITIES : list (list Z) :=
  [ [0; 1; 0; -1; 0; 1; -1; -1; 1];
    [0; 0; 1; 0; -1; 1; 1; -1; -1] ]%Z.

Definition LATTICE_INDICES : list nat := seq 0 9.
Definition OPPOSITE_LATTICE_INDICES : list nat := [0; 3; 4; 1; 2; 7; 8; 5; 6].
Definition RIGHT_VELOCITIES : list nat := [1; 5; 8].
Definition UP_VELOCITIES : list nat := [2; 5; 6].
Definition LEFT_VELOCITIES : list nat := [3; 6; 7].
Definition DOWN_VELOCITIES : list nat := [4; 7; 8].
Definition PURE_VERTICAL_VELOCITIES : list nat := [0; 2; 4].
Definition PURE_HORIZONTAL_VELOCITIES : list nat := [0; 1; 3].

(** Displacement of direction [q] along axis [d] ([LATTICE_VELOCITIES[d, q]]). *)
Definition lattice_velocity (d q : nat) : Z :=
  (LATTICE_VELOCITIES !!! d) !!! q.

(** The velocity vector of direction [q] ([LATTICE_VELOCITIES[:, q]]). *)
Definition lattice_vector (q : nat) : list Z :=
  (λ row : list Z, row !!! q) <$> LATTICE_VELOCITIES.

Definition opposite (q : nat) : nat := OPPOSITE_LATTICE_INDICES !!! q.

(** ** The solver, generic in the arithmetic *)

Section Solver.
Context {num : Type} `{Arith num}.

Definition ofZ (z : Z) : num := ofQ (inject_Z z).
Definition fsq (x : num) : num := fmul x x.

(** [jnp.sum] over one axis, accumulated from zero, left to right.  The
    source does not fix the order of accumulation; the statements below name
    sums through [fsum] or are proved in exact arithmetic, where the order
    is immaterial. *)
Definition fsum (l : list num) : num := foldl fadd (ofZ 0) l.

(** Line 26 runs when the module is loaded, line 47 ([jax_enable_x64])
    only when [main] is called: the table is a binary32 array for the whole
    run, and its entries are promoted to binary64 unchanged wherever line 43
    multiplies them with the 64-bit fields. *)
Definition LATTICE_WEIGHTS : list num :=
  [ ofQ (float32_entry 4 9);
    ofQ (float32_entry 1 9); ofQ (float32_entry 1 9);
    ofQ (float32_entry 1 9); ofQ (float32_entry 1 9);
    ofQ (float32_entry 1 36); ofQ (float32_entry 1 36);
    ofQ (float32_entry 1 36); ofQ (float32_entry 1 36) ].

(** *** Indexing *)

(** [f[x, :, dirs]]: one row per listed direction, shape [(|dirs|, Ny)]. *)
Definition index_col (f : list (list (list num))) (x : nat)
    (dirs : list nat) : list (list num) :=
  (λ k : nat, (λ cell : list num, cell !!! k) <$> (f !!! x : list (list num)))
    <$> dirs.

(** One cell of [f.at[x, :, dirs].set(vals)], at row [y]. *)
Definition set_dirs (dirs : list nat) (vals : list (list num)) (y : nat)
    (cell : list num) : list num :=
  foldl (λ c kv, <[kv.1 := (kv.2 : list num) !!! y]> c) cell (zip dirs vals).

(** [f.at[x, :, dirs].set(vals)] with [vals] of shape [(|dirs|, Ny)]. *)
Definition at_col_set (f : list (list (list num))) (x : nat)
    (dirs : list nat) (vals : list (list num)) : list (list (list num)) :=
  alter (imap (set_dirs dirs vals)) x f.

(** [a.T] for a two-dimensional array. *)
Definition transpose (a : list (list num)) : list (list num) :=
  match a with
  | [] => []
  | r :: _ =>
      (λ y : nat, (λ row : list num, row !!! y) <$> a) <$> seq 0 (length r)
  end.

(** [f[:, :, q]] *)
Definition slice_dir (f : list (list (list num))) (q : nat)
    : list (list num) :=
  (λ col : list (list num), (λ cell : list num, cell !!! q) <$> col) <$> f.

(** [f.at[:, :, q].set(a)] *)
Definition at_dir_set (f : list (list (list num))) (q : nat)
    (a : list (list num)) : list (list (list num)) :=
  zip_with (zip_with (λ (cell : list num) v, <[q := v]> cell)) f a.

(** [f[mask, q]]: the masked cells' component [q], in row-major order. *)
Definition mask_gather (mask : list (list bool))
    (f : list (list (list num))) (q : nat) : list num :=
  concat (zip_with
            (λ mrow frow,
               mask_select mrow ((λ cell : list num, cell !!! q) <$> frow))
            mask f).

(** One grid column of [f.at[mask, q].set(vals)]: masked cells take the
    next value of [vals]; returns the unused values. *)
Fixpoint mask_put_col (q : nat) (m : list bool) (col : list (list num))
    (vals : list num) : list (list num) * list num :=
  match m, col with
  | b :: m', cell :: col' =>
      if b then
        match vals with
        | v :: vals' =>
            let r := mask_put_col q m' col' vals' in
            (<[q := v]> cell :: r.1, r.2)
        | [] => (col, [])
        end
      else
        let r := mask_put_col q m' col' vals in (cell :: r.1, r.2)
  | _, _ => (col, vals)
  end.

(** [f.at[mask, q].set(vals)] *)
Fixpoint mask_scatter (q : nat) (mask : list (list bool))
    (f : list (list (list num))) (vals : list num)
    : list (list (list num)) :=
  match mask, f with
  | mcol :: mask', col :: f' =>
      let r := mask_put_col q mcol col vals in
      r.1 :: mask_scatter q mask' f' r.2
  | _, _ => f
  end.

(** *** Macroscopic fields and equilibrium *)

Definition get_density_rows (a : list (list num)) : list num :=
  fsum <$> a.

Definition get_density (f : list (list (list num))) : list (list num) :=
  get_density_rows <$> f.

(** [einsum("NMQ,dQ->NMd", f, LATTICE_VELOCITIES)] at one cell. *)
Definition momentum (cell : list num) : list num :=
  (λ crow : list Z, fsum (zip_with (λ fq c, fmul fq (ofZ c)) cell crow))
    <$> LATTICE_VELOCITIES.

Definition get_macroscopic_velocities (f : list (list (list num)))
    (rho : list (list num)) : list (list (list num)) :=
  zip_with (zip_with (λ cell r, (λ m, fdiv m r) <$> momentum cell)) f rho.

(** [einsum("dQ,NMd->NMQ", LATTICE_VELOCITIES, u)] at one cell and one
    direction: the projection [c_q . u]. *)
Definition proj (q : nat) (uxy : list num) : num :=
  fsum (zip_with (λ c ud, fmul (ofZ c) ud) (lattice_vector q) uxy).

(** [sum(u ** 2, axis=-1)] at one cell. *)
Definition norm_sq (uxy : list num) : num := fsum (fsq <$> uxy).

Definition equilibrium_value (r w cu u_sq : num) : num :=
  fmul (fmul r w)
       (fsub (fadd (fadd (ofZ 1) (fmul (ofZ 3) cu))
                   (fmul (ofQ 4.5) (fsq cu)))
             (fmul (ofQ 1.5) u_sq)).

Definition equilibrium_cell (uxy : list num) (r : num) : list num :=
  imap (λ q w, equilibrium_value r w (proj q uxy) (norm_sq uxy))
       LATTICE_WEIGHTS.

Definition get_equilibrium_discrete_velocities
    (u : list (list (list num))) (rho : list (list num))
    : list (list (list num)) :=
  zip_with (zip_with equilibrium_cell) u rho.
End Solver.

(** ** One timestep *)

Section Update.
Context {num : Type} `{Arith num}.

(** The values [update] closes over. *)
Variable omega : num.
Variable obstacle_mask : list (list bool).
Variable velocity_profile : list (list (list num)).

(** [f_prev.at[-1, :, LEFT_VELOCITIES].set(f_prev[-2, :, LEFT_VELOCITIES])] *)
Definition outflow (f_prev : list (list (list num)))
    : list (list (list num)) :=
  at_col_set f_prev (norm_index (length f_prev) (-1)) LEFT_VELOCITIES
    (index_col f_prev (norm_index (length f_prev) (-2)) LEFT_VELOCITIES).

(** [u.at[0, 1:-1, :].set(velocity_profile[0, 1:-1, :])] *)
Definition inflow_velocity (u : list (list (list num)))
    : list (list (list num)) :=
  alter (λ col : list (list num),
           set_inner_rows col
             (inner_rows (velocity_profile !!! 0 : list (list num))))
        0 u.

(** [(get_density(f[0, :, PURE_VERTICAL_VELOCITIES].T)
      + 2 * get_density(f[0, :, LEFT_VELOCITIES].T)) / (1 - u[0, :, 0])] *)
Definition zou_he_density (f u : list (list (list num))) : list num :=
  zip_with fdiv
    (zip_with (λ a b, fadd a (fmul (ofZ 2) b))
       (get_density_rows (transpose (index_col f 0 PURE_VERTICAL_VELOCITIES)))
       (get_density_rows (transpose (index_col f 0 LEFT_VELOCITIES))))
    ((λ uxy : list num, fsub (ofZ 1) (uxy !!! 0))
       <$> (u !!! 0 : list (list num))).

(** [rho.at[0, :].set(...)] *)
Definition inflow_density (f u : list (list (list num)))
    (rho : list (list num)) : list (list num) :=
  <[0 := zou_he_density f u]> rho.

(** [f_prev.at[0, :, RIGHT_VELOCITIES].set(feq[0, :, RIGHT_VELOCITIES])] *)
Definition inflow_field (f_prev feq : list (list (list num)))
    : list (list (list num)) :=
  at_col_set f_prev 0 RIGHT_VELOCITIES (index_col feq 0 RIGHT_VELOCITIES).

(** [f_prev - omega * (f_prev - feq)] *)
Definition collision (f_prev feq : list (list (list num)))
    : list (list (list num)) :=
  zip_with (zip_with (zip_with (λ a e, fsub a (fmul omega (fsub a e)))))
           f_prev feq.

(** The loop of lines 79-82: direction [i] of every masked cell is
    overwritten with the opposite direction of [f_prev]. *)
Definition bounce_back (f_prev f_post : list (list (list num)))
    : list (list (list num)) :=
  foldl (λ fp i,
           mask_scatter (LATTICE_INDICES !!! i) obstacle_mask fp
             (mask_gather obstacle_mask f_prev
                (OPPOSITE_LATTICE_INDICES !!! i)))
        f_post (seq 0 N_DISCRETE_VELOCITIES).

(** [jnp.roll(jnp.roll(a, sx, axis=0), sy, axis=1)] *)
Definition roll2 (sx sy : Z) (a : list (list num)) : list (list num) :=
  (λ col : list num, roll sy col) <$> roll sx a.

(** The loop of lines 84-91. *)
Definition streaming (f_post : list (list (list num)))
    : list (list (list num)) :=
  foldl (λ fs i,
           at_dir_set fs i
             (roll2 (lattice_velocity 0 i) (lattice_velocity 1 i)
                    (slice_dir f_post i)))
        f_post (seq 0 N_DISCRETE_VELOCITIES).

(** Named intermediate values of [update], as functions of the field
    [f1] that line 64 produces: [u] after line 68, [rho] after line 72,
    [feq] of line 74, [f_prev] after line 75 and [f_post] after line 82. *)
Definition inlet_u (f1 : list (list (list num)))
    : list (list (list num)) :=
  inflow_velocity (get_macroscopic_velocities f1 (get_density f1)).

Definition inlet_rho (f1 : list (list (list num))) : list (list num) :=
  inflow_density f1 (inlet_u f1) (get_density f1).

Definition inlet_feq (f1 : list (list (list num)))
    : list (list (list num)) :=
  get_equilibrium_discrete_velocities (inlet_u f1) (inlet_rho f1).

Definition inlet_field (f1 : list (list (list num)))
    : list (list (list num)) :=
  inflow_field f1 (inlet_feq f1).

Definition post_collision (f1 : list (list (list num)))
    : list (list (list num)) :=
  bounce_back (inlet_field f1) (collision (inlet_field f1) (inlet_feq f1)).

Definition update (f_prev : list (list (list num)))
    : list (list (list num)) :=
  let f_prev := outflow f_prev in
  let rho := get_density f_prev in
  let u := get_macroscopic_velocities f_prev rho in
  let u := inflow_velocity u in
  let rho := inflow_density f_prev u rho in
  let feq := get_equilibrium_discrete_velocities u rho in
  let f_prev := inflow_field f_prev feq in
  let f_post := collision f_prev feq in
  let f_post := bounce_back f_prev f_post in
  streaming f_post.

End Update.

(** ** Setup and the time loop ([main]) *)

(** The constants of lines 8-15 a run depends on.  The inflow speed is the
    decimal literal of line 15. *)
Record config := {
  N_POINTS_X : nat;
  N_POINTS_Y : nat;
  REYNOLDS_NUMBER : Z;
  MAX_HORIZONTAL_INFLOW_VELOCITY : Q
}.

Definition reference_config : config := {|
  N_POINTS_X := 300;
  N_POINTS_Y := 50;
  REYNOLDS_NUMBER := 80;
  MAX_HORIZONTAL_INFLOW_VELOCITY := 0.04
|}.

Section Setup.
Variable cfg : config.

Definition CYLINDER_CENTER_INDEX_X : Z := Z.of_nat (N_POINTS_X cfg) / 5.
Definition CYLINDER_CENTER_INDEX_Y : Z := Z.of_nat (N_POINTS_Y cfg) / 2.
Definition CYLINDER_RADIUS_INDICES : Z := Z.of_nat (N_POINTS_Y cfg) / 9.

(** The inflow speed as the program holds it: the literal read as a
    binary64 number. *)
Definition inflow_speed : spec_float :=
  b64_of_Q (MAX_HORIZONTAL_INFLOW_VELOCITY cfg).

(** An [int] operand of a [float] operation is converted to [float] first;
    an [int] beyond the binary64 range raises [OverflowError]. *)
Definition py_float (z : Z) : option spec_float :=
  let x := b64_of_Z z in
  if is_finite x then Some x else None.

(** Python's [/] on floats: a divisor equal to zero (of either sign) raises
    [ZeroDivisionError]. *)
Definition py_div (a b : spec_float) : option spec_float :=
  if SFeqb b (S754_zero false) then None else Some (b64_div a b).

(** Lines 49-50, in binary64. *)
Definition relaxation_nu : option spec_float :=
  R ← py_float CYLINDER_RADIUS_INDICES;
  Re ← py_float (REYNOLDS_NUMBER cfg);
  py_div (b64_mul inflow_speed R) Re.

Definition relaxation_omega : option spec_float :=
  nu ← relaxation_nu;
  py_div (b64_of_Z 1) (b64_add (b64_mul (b64_of_Z 3) nu) (b64_of_Q 0.5)).

(** Squared distance of grid point [(x, y)] from the cylinder centre. *)
Definition dist_sq (x y : nat) : Z :=
  ((Z.of_nat x - CYLINDER_CENTER_INDEX_X) ^ 2
   + (Z.of_nat y - CYLINDER_CENTER_INDEX_Y) ^ 2)%Z.

(** [sqrt(d2) < r] on integers [d2 >= 0] and [r], decided without
    leaving the integers (see [sqrt_lt_spec]). *)
Definition sqrt_lt (d2 r : Z) : bool :=
  (0 <? r)%Z && (d2 <? r * r)%Z.

(** Lines 52-57. *)
Definition obstacle_mask : list (list bool) :=
  (λ x : nat,
     (λ y : nat, sqrt_lt (dist_sq x y) CYLINDER_RADIUS_INDICES)
       <$> seq 0 (N_POINTS_Y cfg))
    <$> seq 0 (N_POINTS_X cfg).

(** Lines 59-60. *)
Definition velocity_profile : list (list (list Qc)) :=
  (λ col : list (list Qc),
     (λ uxy : list Qc, <[0 := Q2Qc (SF2Q inflow_speed)]> uxy) <$> col)
    <$> replicate (N_POINTS_X cfg)
          (replicate (N_POINTS_Y cfg) (replicate 2 (Q2Qc 0))).

(** Lines 94-95. *)
Definition initial_field : list (list (list Qc)) :=
  get_equilibrium_discrete_velocities velocity_profile
    (replicate (N_POINTS_X cfg) (replicate (N_POINTS_Y cfg) (Q2Qc 1))).

(** One pass of the time loop (line 101).  [update] addresses the first axis
    of the field with the integers [-1], [-2] and [0]; on an empty first
    axis the call raises, on a field with at least one column it is
    [update]. *)
Definition checked_update (omega : Qc) (f : list (list (list Qc)))
    : option (list (list (list Qc))) :=
  if decide (length f = 0) then None
  else Some (update omega obstacle_mask velocity_profile f).

(** Lines 100-101: [n] passes, each on the result of the one before. *)
Fixpoint time_loop (omega : Qc) (n : nat) (f : list (list (list Qc)))
    : option (list (list (list Qc))) :=
  match n with
  | 0 => Some f
  | S k => f' ← checked_update omega f; time_loop omega k f'
  end.

(** [main] with the plotting left out: setup, then [n] timesteps on the
    initial field.  [None] stands for a run that raises (the
    [ZeroDivisionError] or [OverflowError] of lines 49-50, the error of
    [update] on a grid of width 0), and for a run whose inflow speed or
    frequency is an infinity or NaN: the arrays then hold infinities and
    NaN, for which the arithmetic of the fields has no values. *)
Definition main (n : nat) : option (list (list (list Qc))) :=
  omega ← relaxation_omega;
  if is_finite inflow_speed && is_finite omega
  then time_loop (Q2Qc (SF2Q omega)) n initial_field
  else None.
End Setup.

(** ** Shapes and entry access *)

Definition shape2 {A} (nx ny : nat) (a : list (list A)) : Prop :=
  length a = nx ∧ Forall (λ col, length col = ny) a.

Definition shape3 {A} (nx ny nq : nat) (f : list (list (list A))) : Prop :=
  length f = nx ∧ Forall (shape2 ny nq) f.

(** [a[x, y]] *)
Definition get2 {A} (a : list (list A)) (x y : nat) : option A :=
  col ← a !! x; col !! y.

(** [f[x, y, q]] *)
Definition get3 {A} (f : list (list (list A))) (x y q : nat) : option A :=
  cell ← get2 f x y; cell !! q.

(** The velocity vector of direction [q] as a pair. *)
Definition c_x (q : nat) : Z := lattice_velocity 0 q.
Definition c_y (q : nat) : Z := lattice_velocity 1 q.

(** Periodic source index of streaming: [(i - s) mod n]. *)
Definition wrap (n : nat) (i : nat) (s : Z) : nat :=
  Z.to_nat ((Z.of_nat i - s) mod Z.of_nat n).

(** [cell[dirs]]: the listed direction components of one cell. *)
Definition components {A} `{Inhabited A} (dirs : list nat) (cell : list A)
    : list A :=
  (λ k : nat, cell !!! k) <$> dirs.

(** ** Small concrete inputs *)

(** A field with pairwise distinct positive entries. *)
Definition sample_field (nx ny : nat) : list (list (list Qc)) :=
  (λ x : nat,
     (λ y : nat,
        (λ q : nat, Q2Qc (inject_Z (Z.of_nat (100 * x + 10 * y + q + 1))))
          <$> seq 0 9)
       <$> seq 0 ny)
    <$> seq 0 nx.

(** A uniform inflow profile [(U, 0)]. *)
Definition sample_profile (nx ny : nat) (U : Q) : list (list (list Qc)) :=
  replicate nx (replicate ny [Q2Qc U; Q2Qc 0]).

(** A mask with the single obstacle cell [(1, 1)] on a [3 x 3] grid. *)
Definition sample_mask : list (list bool) :=
  [ [false; false; false]; [false; true; false]; [false; false; false] ].

(** ** Frame output (lines 100-131) *)

Definition VISUALIZE : bool := true.
Definition PLOT_EVERY_N_STEPS : nat := 100.
Definition SKIP_FIRST_N_ITERATIONS : nat := 5000.

(** The test of line 103. *)
Definition plots (iteration_index : nat) : bool :=
  bool_decide (iteration_index mod PLOT_EVERY_N_STEPS = 0)
  && VISUALIZE
  && bool_decide (SKIP_FIRST_N_ITERATIONS < iteration_index).

Fixpoint zeros (k : nat) : string :=
  match k with
  | 0 => EmptyString
  | S k => String "0"%char (zeros k)
  end.

(** Python's format spec [05d] on a non-negative integer: the decimal
    digits, filled with zeros on the left up to width 5. *)
Definition format_05d (n : nat) : string :=
  zeros (5 - String.length (pretty n)) +:+ pretty n.

(** [f"results/frame_{iteration_index:05d}.png"] *)
Definition frame_path (iteration_index : nat) : string :=
  "results/frame_" +:+ format_05d iteration_index +:+ ".png".

(** The files a run of [n_iterations] timesteps writes, in order. *)
Definition saved_frames (n_iterations : nat) : list string :=
  frame_path <$> filter (λ i, plots i = true) (seq 0 n_iterations).

(** ** The vorticity diagnostic (lines 104-109) *)

(** [jnp.gradient] along one axis with unit spacing, on an axis of at least
    two entries: one-sided differences at both ends, halved central
    differences inside, then the division by the spacing. *)
Definition gradient_along {T : Type} (sub : T → T → T) (half by_h : T → T)
    (a : list T) : list T :=
  by_h <$> (zip_with sub (take 1 (drop 1 a)) (take 1 a)
            ++ (half <$> zip_with sub (drop 2 a) (take (length a - 2) a))
            ++ zip_with sub (drop (length a - 1) a)
                        (take 1 (drop (length a - 2) a))).

Section Diagnostics.
Context {num : Type} `{Arith num}.

(** [jnp.gradient(a)] of a two-dimensional array: the derivatives along
    axis 0 and along axis 1; an axis shorter than 2 raises [ValueError]. *)
Definition gradient (a : list (list num))
    : option (list (list num) * list (list num)) :=
  match a with
  | [] => None
  | col :: _ =>
      if decide (length a < 2 ∨ length col < 2) then None
      else
        Some (gradient_along (zip_with fsub)
                (fmap (λ v, fmul v (ofQ 0.5))) (fmap (λ v, fdiv v (ofQ 1))) a,
              (λ c : list num,
                 gradient_along fsub (λ v, fmul v (ofQ 0.5))
                                (λ v, fdiv v (ofQ 1)) c) <$> a)
  end.

(** Lines 107-109: [curl = du_dy - dv_dx]. *)
Definition curl (u : list (list (list num))) : option (list (list num)) :=
  du ← gradient (slice_dir u 0);
  dv ← gradient (slice_dir u 1);
  Some (zip_with (zip_with fsub) du.2 dv.1).

(** Lines 104-109 for the plotted field. *)
Definition plotted_curl (f : list (list (list num)))
    : option (list (list num)) :=
  let rho := get_density f in
  curl (get_macroscopic_velocities f rho).
End Diagnostics.

(** The array with entry [h x y] at [(x, y)]. *)
Definition grid {T : Type} (nx ny : nat) (h : nat → nat → T)
    : list (list T) :=
  (λ x : nat, (λ y : nat, h x y) <$> seq 0 ny) <$> seq 0 nx.

(** * Properties *)

(** ** Array primitives *)

Section ArrayFacts.
Context {A : Type}.
Implicit Types a vals : list A.

Lemma length_roll s a : length (roll s a) = length a.
Proof.
  unfold roll. rewrite length_app, length_drop, length_take. lia.
Qed.

Lemma lookup_roll s a i :
  i < length a → roll s a !! i = a !! wrap (length a) i s.
Proof.
  intros Hi. unfold roll, wrap.
  set (n := length a) in *.
  assert (Hn : (0 < Z.of_nat n)%Z) by lia.
  pose proof (Z.mod_pos_bound s (Z.of_nat n) Hn) as Hk.
  set (k := Z.to_nat (s mod Z.of_nat n)).
  assert (Hkn : k < n) by lia.
  rewrite <- (Zminus_mod_idemp_r (Z.of_nat i) s).
  replace (s mod Z.of_nat n)%Z with (Z.of_nat k) by lia.
  destruct (decide (i < k)) as [Hlt | Hge].
  - rewrite lookup_app_l by (rewrite length_drop; lia).
    rewrite lookup_drop. f_equal.
    rewrite <- (Z_mod_plus_full _ 1), Z.mod_small by lia. lia.
  - rewrite lookup_app_r by (rewrite length_drop; lia).
    rewrite length_drop, lookup_take_lt by lia. f_equal.
    rewrite Z.mod_small by lia. lia.
Qed.

Lemma length_inner_rows a : length (inner_rows a) = length a - 2.
Proof. unfold inner_rows. rewrite length_take, length_drop. lia. Qed.

Lemma length_set_inner_rows a vals :
  length vals = length a - 2 → length (set_inner_rows a vals) = length a.
Proof.
  intros Hv. unfold set_inner_rows.
  rewrite !length_app, length_take, length_drop. lia.
Qed.

Lemma lookup_inner_rows a j :
  j < length a - 2 → inner_rows a !! j = a !! S j.
Proof.
  intros Hj. unfold inner_rows.
  by rewrite lookup_take_lt, lookup_drop.
Qed.

(** Rows [1 .. n-2] come from the source of the slice assignment. *)
Lemma lookup_set_inner_rows_inner a b y :
  length b = length a → 1 ≤ y → S y < length a →
  set_inner_rows a (inner_rows b) !! y = b !! y.
Proof.
  intros Hb Hy1 Hy2. unfold set_inner_rows.
  rewrite lookup_app_r by (rewrite length_take; lia).
  rewrite length_take.
  rewrite lookup_app_l by (rewrite length_inner_rows; lia).
  rewrite lookup_inner_rows by lia. f_equal. lia.
Qed.

(** The first and the last row are kept. *)
Lemma lookup_set_inner_rows_corner a b y :
  length b = length a → y = 0 ∨ length a ≤ S y →
  set_inner_rows a (inner_rows b) !! y = a !! y.
Proof.
  intros Hb Hy. unfold set_inner_rows.
  destruct (decide (y = 0)) as [-> | Hne].
  - destruct a, b; simplify_eq/=; done.
  - rewrite lookup_app_r by (rewrite length_take; lia).
    rewrite length_take.
    rewrite lookup_app_r by (rewrite length_inner_rows; lia).
    rewrite lookup_drop, length_inner_rows.
    destruct (decide (length a = 0)) as [Hz | Hnz]; [| f_equal; lia].
    rewrite !lookup_ge_None_2; [done | lia..].
Qed.
End ArrayFacts.

(** ** Shapes *)

Section ShapeFacts.
Context {A : Type}.

Lemma shape2_lookup nx ny (a : list (list A)) x col :
  shape2 nx ny a → a !! x = Some col → length col = ny.
Proof. intros [_ Ha] Hx. by eapply (Forall_lookup_1 _ _ _ _ Ha). Qed.

Lemma shape2_get nx ny (a : list (list A)) x y :
  shape2 nx ny a → x < nx → y < ny → is_Some (get2 a x y).
Proof.
  intros Ha Hx Hy. unfold get2.
  destruct (lookup_lt_is_Some_2 a x) as [col Hcol]; [destruct Ha; lia |].
  rewrite Hcol. simpl. apply lookup_lt_is_Some_2.
  by rewrite (shape2_lookup _ _ _ _ _ Ha Hcol).
Qed.

Lemma shape3_lookup nx ny nq (f : list (list (list A))) x col :
  shape3 nx ny nq f → f !! x = Some col → shape2 ny nq col.
Proof. intros [_ Hf] Hx. by eapply (Forall_lookup_1 _ _ _ _ Hf). Qed.

Lemma shape3_get2 nx ny nq (f : list (list (list A))) x y cell :
  shape3 nx ny nq f → get2 f x y = Some cell → length cell = nq.
Proof.
  unfold get2. intros Hf Hc.
  destruct (f !! x) as [col |] eqn:Hcol; [| done]. simpl in Hc.
  eapply shape2_lookup; [| done]. by eapply shape3_lookup.
Qed.

Lemma shape3_cell nx ny nq (f : list (list (list A))) x y :
  shape3 nx ny nq f → x < nx → y < ny →
  ∃ cell, get2 f x y = Some cell ∧ length cell = nq.
Proof.
  intros Hf Hx Hy. unfold get2.
  destruct (lookup_lt_is_Some_2 f x) as [col Hcol]; [destruct Hf; lia |].
  pose proof (shape3_lookup _ _ _ _ _ _ Hf Hcol) as [Hlen Hcells].
  destruct (lookup_lt_is_Some_2 col y) as [cell Hcell]; [lia |].
  exists cell. rewrite Hcol. simpl. split; [done |].
  by eapply (Forall_lookup_1 _ _ _ _ Hcells).
Qed.

Lemma shape3_get nx ny nq (f : list (list (list A))) x y q :
  shape3 nx ny nq f → x < nx → y < ny → q < nq → is_Some (get3 f x y q).
Proof.
  intros Hf Hx Hy Hq. unfold get3.
  destruct (shape3_cell _ _ _ _ _ _ Hf Hx Hy) as (cell & -> & Hlen).
  simpl. apply lookup_lt_is_Some_2. lia.
Qed.

Lemma shape2_intro nx ny (a : list (list A)) :
  length a = nx → (∀ x col, a !! x = Some col → length col = ny) →
  shape2 nx ny a.
Proof. intros Hl Hc. split; [done |]. by apply Forall_lookup_2. Qed.

Lemma shape3_intro nx ny nq (f : list (list (list A))) :
  length f = nx → (∀ x col, f !! x = Some col → shape2 ny nq col) →
  shape3 nx ny nq f.
Proof. intros Hl Hc. split; [done |]. by apply Forall_lookup_2. Qed.
End ShapeFacts.

(** ** Column assignment *)

Section IndexingFacts.
Context {num : Type} `{Arith num}.
Implicit Types (f g : list (list (list num))) (col : list (list num)).
Implicit Types (cell src : list num) (dirs : list nat).

(** Copying the components [dirs] of [src] into [cell]. *)
Lemma lookup_copy_dirs dirs src cell q :
  length src = length cell →
  foldl (λ c k, <[k := src !!! k]> c) cell dirs !! q
  = if decide (q ∈ dirs) then src !! q else cell !! q.
Proof.
  revert cell. induction dirs as [| k dirs IH]; intros cell Hlen; cbn [foldl].
  - case_decide as Hin; [by apply elem_of_nil in Hin | done].
  - rewrite IH by by rewrite length_insert.
    destruct (decide (q ∈ dirs)) as [Hin | Hnin].
    + by rewrite decide_True by by right.
    + destruct (decide (q = k)) as [-> | Hne].
      * rewrite decide_True by by left.
        destruct (decide (k < length cell)) as [Hk | Hk].
        -- rewrite list_lookup_insert_eq by done.
           symmetry. apply list_lookup_lookup_total_lt. lia.
        -- rewrite list_insert_ge by lia.
           rewrite !lookup_ge_None_2; [done | lia..].
      * rewrite decide_False by (rewrite elem_of_cons; intros [? | ?]; done).
        by rewrite list_lookup_insert_ne.
Qed.

Lemma length_copy_dirs dirs src cell :
  length (foldl (λ c k, <[k := src !!! k]> c) cell dirs) = length cell.
Proof.
  revert cell. induction dirs as [| k dirs IH]; intros cell; simpl; [done |].
  by rewrite IH, length_insert.
Qed.

(** [f.at[x, :, dirs].set(g[x', :, dirs])] at one cell. *)
Lemma set_dirs_index_col g x' dirs y cell col src :
  g !! x' = Some col → col !! y = Some src →
  set_dirs dirs (index_col g x' dirs) y cell
  = foldl (λ c k, <[k := src !!! k]> c) cell dirs.
Proof.
  intros Hcol Hsrc. unfold set_dirs, index_col.
  rewrite (list_lookup_total_correct g x' col Hcol).
  revert cell. induction dirs as [| k dirs IH]; intros cell; simpl; [done |].
  rewrite IH. do 2 f_equal.
  rewrite (list_lookup_total_fmap (λ c : list num, c !!! k) col y)
    by by eapply lookup_lt_Some.
  by rewrite (list_lookup_total_correct col y src Hsrc).
Qed.

Lemma get2_at_col_set f x dirs vals x' y :
  get2 (at_col_set f x dirs vals) x' y
  = if decide (x = x') then set_dirs dirs vals y <$> get2 f x' y
    else get2 f x' y.
Proof.
  unfold get2, at_col_set. rewrite list_lookup_alter.
  destruct (decide (x = x')) as [-> | Hne]; [| done].
  destruct (f !! x') as [col |]; simpl; [| done].
  by rewrite list_lookup_imap.
Qed.

Lemma length_at_col_set f x dirs vals :
  length (at_col_set f x dirs vals) = length f.
Proof. apply length_alter. Qed.

(** Column copy between two fields of the same height. *)
Lemma get3_at_col_set nx ny f g x x' dirs xx y q :
  shape3 nx ny 9 f → shape3 nx ny 9 g → x < nx → x' < nx → y < ny →
  get3 (at_col_set f x dirs (index_col g x' dirs)) xx y q
  = if decide (xx = x ∧ q ∈ dirs) then get3 g x' y q else get3 f xx y q.
Proof.
  intros Hf Hg Hx Hx' Hy. unfold get3. rewrite get2_at_col_set.
  destruct (decide (x = xx)) as [<- | Hne];
    [| by rewrite decide_False by (intros [? ?]; done)].
  destruct (shape3_cell _ _ _ _ _ _ Hg Hx' Hy) as (src & Hsrc & Hls).
  destruct (shape3_cell _ _ _ _ _ _ Hf Hx Hy) as (cell & Hcell & Hlc).
  rewrite Hsrc, Hcell. simpl.
  unfold get2 in Hsrc.
  destruct (g !! x') as [col |] eqn:Hcol; [| done]. simpl in Hsrc.
  rewrite (set_dirs_index_col _ _ _ _ _ _ _ Hcol Hsrc).
  rewrite lookup_copy_dirs by lia.
  destruct (decide (q ∈ dirs)).
  - by rewrite decide_True.
  - by rewrite decide_False by (intros [? ?]; done).
Qed.

Lemma shape3_at_col_set nx ny f g x x' dirs :
  shape3 nx ny 9 f → shape3 nx ny 9 g → x' < nx →
  shape3 nx ny 9 (at_col_set f x dirs (index_col g x' dirs)).
Proof.
  intros Hf Hg Hx'. apply shape3_intro.
  - rewrite length_at_col_set. by destruct Hf.
  - intros xx col2 Hcol2. unfold at_col_set in Hcol2.
    rewrite list_lookup_alter in Hcol2. revert Hcol2.
    destruct (decide (x = xx)) as [<- | Hne]; intros Hcol2;
      [| exact (shape3_lookup _ _ _ _ _ _ Hf Hcol2)].
    destruct (f !! x) as [col |] eqn:Hcol; simplify_eq/=.
    pose proof (shape3_lookup _ _ _ _ _ _ Hf Hcol) as Hs.
    destruct (lookup_lt_is_Some_2 g x') as [gcol Hgcol];
      [destruct Hg; lia |].
    pose proof (shape3_lookup _ _ _ _ _ _ Hg Hgcol) as Hgs.
    apply shape2_intro; [rewrite length_imap; by destruct Hs |].
    intros y cell2. rewrite list_lookup_imap.
    destruct (col !! y) as [cell |] eqn:Hcell; intros; simplify_eq/=.
    destruct (lookup_lt_is_Some_2 gcol y) as [src Hsrc].
    { destruct Hgs as [-> _]. destruct Hs as [<- _].
      by eapply lookup_lt_Some. }
    rewrite (set_dirs_index_col _ _ _ _ _ _ _ Hgcol Hsrc).
    rewrite length_copy_dirs. exact (shape2_lookup _ _ _ _ _ Hs Hcell).
Qed.
End IndexingFacts.

(** ** Streaming *)

Section StreamingFacts.
Context {num : Type} `{Arith num}.
Implicit Types (f g : list (list (list num))) (a : list (list num)).

Lemma wrap_lt n i s : 0 < n → wrap n i s < n.
Proof.
  intros Hn. unfold wrap.
  pose proof (Z.mod_pos_bound (Z.of_nat i - s) (Z.of_nat n)). lia.
Qed.

Lemma get2_slice_dir f q x y :
  get2 (slice_dir f q) x y = (λ cell : list num, cell !!! q) <$> get2 f x y.
Proof.
  unfold get2, slice_dir. rewrite list_lookup_fmap.
  destruct (f !! x) as [col |]; simpl; [| done].
  by rewrite list_lookup_fmap.
Qed.

Lemma shape2_slice_dir nx ny nq f q :
  shape3 nx ny nq f → shape2 nx ny (slice_dir f q).
Proof.
  intros Hf. apply shape2_intro.
  - unfold slice_dir. rewrite length_fmap. by destruct Hf.
  - intros x col. unfold slice_dir. rewrite list_lookup_fmap.
    destruct (f !! x) as [fcol |] eqn:Hx; intros; simplify_eq/=.
    rewrite length_fmap.
    by destruct (shape3_lookup _ _ _ _ _ _ Hf Hx).
Qed.

Lemma get2_roll2 nx ny a sx sy x y :
  shape2 nx ny a → x < nx → y < ny →
  get2 (roll2 sx sy a) x y = get2 a (wrap nx x sx) (wrap ny y sy).
Proof.
  intros Ha Hx Hy. unfold get2, roll2.
  rewrite list_lookup_fmap, lookup_roll by (destruct Ha; lia).
  destruct Ha as [Hlen Hcols]. rewrite Hlen.
  destruct (a !! wrap nx x sx) as [col |] eqn:Hcol; simpl; [| done].
  pose proof (Forall_lookup_1 _ _ _ _ Hcols Hcol) as Hl. simpl in Hl.
  rewrite lookup_roll by lia. by rewrite Hl.
Qed.

Lemma shape2_roll2 nx ny a sx sy :
  shape2 nx ny a → shape2 nx ny (roll2 sx sy a).
Proof.
  intros [Hlen Hcols]. apply shape2_intro.
  - unfold roll2. by rewrite length_fmap, length_roll.
  - intros x col. unfold roll2. rewrite list_lookup_fmap.
    destruct (roll sx a !! x) as [c |] eqn:Hc; intros; simplify_eq/=.
    rewrite length_roll.
    assert (Hx : x < length a).
    { rewrite <- (length_roll sx). by eapply lookup_lt_Some. }
    rewrite lookup_roll in Hc by done.
    exact (Forall_lookup_1 _ _ _ _ Hcols Hc).
Qed.

Lemma get2_at_dir_set f q a x y :
  get2 (at_dir_set f q a) x y
  = cell ← get2 f x y; v ← get2 a x y; Some (<[q := v]> cell).
Proof.
  unfold get2, at_dir_set. rewrite lookup_zip_with.
  destruct (f !! x) as [col |]; simpl; [| done].
  destruct (a !! x) as [acol |]; simpl.
  - by rewrite lookup_zip_with.
  - by destruct (col !! y).
Qed.

Lemma shape3_at_dir_set nx ny nq f q a :
  shape3 nx ny nq f → shape2 nx ny a → shape3 nx ny nq (at_dir_set f q a).
Proof.
  intros Hf Ha. apply shape3_intro.
  - unfold at_dir_set. rewrite length_zip_with.
    destruct Hf, Ha. lia.
  - intros x col. unfold at_dir_set. rewrite lookup_zip_with.
    destruct (f !! x) as [fcol |] eqn:Hfx; simpl; [| done].
    destruct (a !! x) as [acol |] eqn:Hax; intros; simplify_eq/=.
    pose proof (shape3_lookup _ _ _ _ _ _ Hf Hfx) as Hs.
    pose proof (shape2_lookup _ _ _ _ _ Ha Hax) as Hl.
    apply shape2_intro.
    + rewrite length_zip_with. destruct Hs. lia.
    + intros y cell. rewrite lookup_zip_with.
      destruct (fcol !! y) as [c |] eqn:Hc; simpl; [| done].
      destruct (acol !! y); intros; simplify_eq/=.
      rewrite length_insert. exact (shape2_lookup _ _ _ _ _ Hs Hc).
Qed.

(** One pass of the streaming loop over the directions [l]. *)
Lemma get3_streaming_fold nx ny f0 (l : list nat) f x y q :
  shape3 nx ny 9 f0 → shape3 nx ny 9 f → x < nx → y < ny → q < 9 →
  get3 (foldl (λ fs i,
                 at_dir_set fs i
                   (roll2 (lattice_velocity 0 i) (lattice_velocity 1 i)
                          (slice_dir f0 i))) f l) x y q
  = if decide (q ∈ l)
    then get3 f0 (wrap nx x (c_x q)) (wrap ny y (c_y q)) q
    else get3 f x y q.
Proof.
  intros Hf0 Hf Hx Hy Hq. revert f Hf.
  induction l as [| i l IH]; intros f Hf; cbn [foldl].
  - by rewrite decide_False by apply not_elem_of_nil.
  - pose proof (shape2_roll2 _ _ _ (lattice_velocity 0 i)
                  (lattice_velocity 1 i) (shape2_slice_dir _ _ _ _ i Hf0))
      as Ha.
    rewrite IH by by apply shape3_at_dir_set.
    destruct (decide (q ∈ l)) as [Hin | Hnin];
      [by rewrite decide_True by by right |].
    unfold get3 at 1. rewrite get2_at_dir_set.
    destruct (shape3_cell _ _ _ _ _ _ Hf Hx Hy) as (cell & Hcell & Hlc).
    rewrite Hcell. simpl.
    rewrite (get2_roll2 nx ny) by (done || by eapply shape2_slice_dir).
    rewrite get2_slice_dir.
    destruct (shape3_cell _ _ _ f0 (wrap nx x (lattice_velocity 0 i))
                (wrap ny y (lattice_velocity 1 i)) Hf0)
      as (src & Hsrc & Hls); [apply wrap_lt; lia.. |].
    rewrite Hsrc. simpl.
    destruct (decide (q = i)) as [-> | Hne].
    + rewrite decide_True by by left.
      rewrite list_lookup_insert_eq by lia.
      unfold get3, c_x, c_y. rewrite Hsrc. simpl.
      symmetry. apply list_lookup_lookup_total_lt. lia.
    + rewrite decide_False by (rewrite elem_of_cons; intros [? | ?]; done).
      rewrite list_lookup_insert_ne by done.
      unfold get3. by rewrite Hcell.
Qed.

Lemma shape3_streaming_fold nx ny f0 (l : list nat) f :
  shape3 nx ny 9 f0 → shape3 nx ny 9 f →
  shape3 nx ny 9
    (foldl (λ fs i,
              at_dir_set fs i
                (roll2 (lattice_velocity 0 i) (lattice_velocity 1 i)
                       (slice_dir f0 i))) f l).
Proof.
  intros Hf0. revert f.
  induction l as [| i l IH]; intros f Hf; cbn [foldl]; [done |].
  apply IH, shape3_at_dir_set; [done |].
  by eapply shape2_roll2, shape2_slice_dir.
Qed.

Lemma shape3_streaming nx ny f :
  shape3 nx ny 9 f → shape3 nx ny 9 (streaming f).
Proof. intros Hf. by apply shape3_streaming_fold. Qed.
End StreamingFacts.

(** ** Boolean-mask assignment *)

Section MaskFacts.
Context {num : Type} `{Arith num}.
Implicit Types (f g : list (list (list num))) (col src : list (list num)).
Implicit Types (mask : list (list bool)) (m : list bool).

(** Scattering what was gathered under the same mask, one grid column:
    masked cells get component [q'] of the source cell in slot [q], the
    values of the other columns ([rest]) are passed on. *)
Lemma mask_put_col_select q q' m col src rest :
  length m = length col → length src = length col →
  mask_put_col q m col
    (mask_select m ((λ c : list num, c !!! q') <$> src) ++ rest)
  = (zip_with (λ (b : bool) cs, if b then <[q := cs.2 !!! q']> cs.1 else cs.1)
              m (zip col src), rest).
Proof.
  revert col src.
  induction m as [| b m IH]; intros [| cell col] [| s src] Hm Hs;
    simplify_eq/=; [done |].
  destruct b; simpl; rewrite IH by done; done.
Qed.

Lemma mask_scatter_gather nx ny nq nq' q q' mask f g :
  shape2 nx ny mask → shape3 nx ny nq f → shape3 nx ny nq' g →
  mask_scatter q mask f (mask_gather mask g q')
  = zip_with
      (λ m cc,
         zip_with (λ (b : bool) cs,
                     if b then <[q := cs.2 !!! q']> cs.1 else cs.1)
                  m (zip cc.1 cc.2))
      mask (zip f g).
Proof.
  unfold mask_gather. revert nx f g.
  induction mask as [| m mask IH]; intros nx [| col f] [| src g] Hm Hf Hg;
    try done;
    try by (destruct Hm as [Hm _], Hf as [Hf _], Hg as [Hg _];
            simplify_eq/=).
  destruct Hm as [Hlm Hm], Hf as [Hlf Hf], Hg as [Hlg Hg].
  apply Forall_cons in Hm as [Hm1 Hm], Hf as [Hf1 Hf], Hg as [Hg1 Hg].
  cbn [zip_with zip concat mask_scatter].
  rewrite mask_put_col_select
    by (destruct Hf1 as [? _], Hg1 as [? _]; simpl in *; lia).
  cbn [fst snd]. f_equal.
  apply (IH (length mask)); split; simplify_eq/=; (done || lia).
Qed.

Lemma get2_mask_scatter_gather nx ny nq nq' q q' mask f g x y :
  shape2 nx ny mask → shape3 nx ny nq f → shape3 nx ny nq' g →
  get2 (mask_scatter q mask f (mask_gather mask g q')) x y
  = b ← get2 mask x y; cell ← get2 f x y; s ← get2 g x y;
    Some (if b : bool then <[q := s !!! q']> cell else cell).
Proof.
  intros Hm Hf Hg.
  rewrite (mask_scatter_gather _ _ _ _ _ _ _ _ _ Hm Hf Hg).
  unfold get2. rewrite lookup_zip_with.
  destruct (mask !! x) as [m |]; simpl; [| done].
  rewrite lookup_zip_with.
  destruct (f !! x) as [col |]; simpl; [| by destruct (m !! y)].
  destruct (g !! x) as [src |]; simpl.
  - rewrite lookup_zip_with.
    destruct (m !! y) as [b |]; simpl; [| done].
    rewrite lookup_zip_with.
    destruct (col !! y) as [cell |]; simpl; [| done].
    by destruct (src !! y).
  - destruct (m !! y); simpl; [| done]. by destruct (col !! y).
Qed.

Lemma shape3_mask_scatter_gather nx ny nq q q' mask f g :
  shape2 nx ny mask → shape3 nx ny nq f → shape3 nx ny nq g →
  shape3 nx ny nq (mask_scatter q mask f (mask_gather mask g q')).
Proof.
  intros Hm Hf Hg.
  rewrite (mask_scatter_gather _ _ _ _ _ _ _ _ _ Hm Hf Hg).
  apply shape3_intro.
  - rewrite length_zip_with, length_zip. destruct Hm, Hf, Hg. lia.
  - intros x col2. rewrite lookup_zip_with.
    destruct (mask !! x) as [m |] eqn:Hmx; simpl; [| done].
    rewrite lookup_zip_with.
    destruct (f !! x) as [col |] eqn:Hfx; simpl; [| done].
    destruct (g !! x) as [src |] eqn:Hgx; intros; simplify_eq/=.
    pose proof (shape2_lookup _ _ _ _ _ Hm Hmx) as Hlm.
    pose proof (shape3_lookup _ _ _ _ _ _ Hf Hfx) as Hsf.
    pose proof (shape3_lookup _ _ _ _ _ _ Hg Hgx) as Hsg.
    apply shape2_intro.
    + rewrite length_zip_with, length_zip. destruct Hsf, Hsg. lia.
    + intros y cell2. rewrite lookup_zip_with.
      destruct (m !! y) as [b |]; simpl; [| done].
      rewrite lookup_zip_with.
      destruct (col !! y) as [cell |] eqn:Hc; simpl; [| done].
      destruct (src !! y); intros; simplify_eq/=.
      pose proof (shape2_lookup _ _ _ _ _ Hsf Hc).
      destruct b; [by rewrite length_insert | done].
Qed.
End MaskFacts.

(** ** Bounce-back, broadcasting arithmetic *)

(** A list of known length [n], written out. *)
Ltac explode_list l Hlen :=
  repeat (destruct l as [| ? l]; [discriminate Hlen |]);
  destruct l; [| discriminate Hlen]; clear Hlen.

Section BounceFacts.
Context {num : Type} `{Arith num}.
Implicit Types (f g : list (list (list num))) (cell src : list num).
Implicit Types (mask : list (list bool)).

(** All nine passes of the bounce-back loop at one masked cell. *)
Lemma lookup_reflect_cell cell src q :
  length cell = 9 → length src = 9 → q < 9 →
  foldl (λ c i,
           <[LATTICE_INDICES !!! i := src !!! (OPPOSITE_LATTICE_INDICES !!! i)]>
             c)
        cell (seq 0 N_DISCRETE_VELOCITIES) !! q
  = src !! opposite q.
Proof.
  intros Hc Hs Hq.
  explode_list cell Hc. explode_list src Hs.
  do 9 (destruct q as [| q]; [reflexivity |]). lia.
Qed.

Lemma length_reflect_cell cell src (l : list nat) :
  length (foldl (λ c i,
           <[LATTICE_INDICES !!! i := src !!! (OPPOSITE_LATTICE_INDICES !!! i)]>
             c) cell l) = length cell.
Proof.
  revert cell. induction l as [| i l IH]; intros cell; cbn [foldl]; [done |].
  by rewrite IH, length_insert.
Qed.

Lemma shape3_bounce_fold nx ny mask g (l : list nat) f :
  shape2 nx ny mask → shape3 nx ny 9 g → shape3 nx ny 9 f →
  shape3 nx ny 9
    (foldl (λ fp i,
              mask_scatter (LATTICE_INDICES !!! i) mask fp
                (mask_gather mask g (OPPOSITE_LATTICE_INDICES !!! i)))
           f l).
Proof.
  intros Hm Hg. revert f.
  induction l as [| i l IH]; intros f Hf; cbn [foldl]; [done |].
  by apply IH, shape3_mask_scatter_gather.
Qed.

Lemma get2_bounce_fold nx ny mask g (l : list nat) f x y b cell s :
  shape2 nx ny mask → shape3 nx ny 9 g → shape3 nx ny 9 f →
  get2 mask x y = Some b → get2 f x y = Some cell → get2 g x y = Some s →
  get2 (foldl (λ fp i,
                 mask_scatter (LATTICE_INDICES !!! i) mask fp
                   (mask_gather mask g (OPPOSITE_LATTICE_INDICES !!! i)))
              f l) x y
  = Some (if b : bool
          then foldl (λ c i,
                        <[LATTICE_INDICES !!! i
                          := s !!! (OPPOSITE_LATTICE_INDICES !!! i)]> c)
                     cell l
          else cell).
Proof.
  intros Hm Hg Hf Hb Hcell Hs. revert f cell Hf Hcell.
  induction l as [| i l IH]; intros f cell Hf Hcell; cbn [foldl].
  - rewrite Hcell. by destruct b.
  - erewrite IH; [| by apply shape3_mask_scatter_gather |].
    2:{ rewrite (get2_mask_scatter_gather _ _ _ _ _ _ _ _ _ _ _ Hm Hf Hg).
        rewrite Hb, Hcell, Hs. done. }
    by destruct b.
Qed.
End BounceFacts.

Section ElementwiseFacts.
Context {num : Type} `{Arith num}.
Implicit Types (f g feq u : list (list (list num))) (rho : list (list num)).

(** Broadcast binary operations act entry by entry. *)
Lemma get2_zip_with2 {A B C} (op : A → B → C) (a : list (list A))
    (b : list (list B)) x y :
  get2 (zip_with (zip_with op) a b) x y
  = v ← get2 a x y; w ← get2 b x y; Some (op v w).
Proof.
  unfold get2. rewrite lookup_zip_with.
  destruct (a !! x) as [ca |]; simpl; [| done].
  destruct (b !! x) as [cb |]; simpl.
  - by rewrite lookup_zip_with.
  - by destruct (ca !! y).
Qed.

Lemma shape2_zip_with2 {A B C} nx ny (op : A → B → C) (a : list (list A))
    (b : list (list B)) :
  shape2 nx ny a → shape2 nx ny b → shape2 nx ny (zip_with (zip_with op) a b).
Proof.
  intros Ha Hb. apply shape2_intro.
  - rewrite length_zip_with. destruct Ha, Hb. lia.
  - intros x col. rewrite lookup_zip_with.
    destruct (a !! x) as [ca |] eqn:Hax; simpl; [| done].
    destruct (b !! x) as [cb |] eqn:Hbx; intros; simplify_eq/=.
    rewrite length_zip_with.
    pose proof (shape2_lookup _ _ _ _ _ Ha Hax).
    pose proof (shape2_lookup _ _ _ _ _ Hb Hbx). lia.
Qed.

Lemma get2_get_density f x y :
  get2 (get_density f) x y = fsum <$> get2 f x y.
Proof.
  unfold get2, get_density, get_density_rows. rewrite list_lookup_fmap.
  destruct (f !! x); simpl; [| done]. by rewrite list_lookup_fmap.
Qed.

Lemma shape2_get_density nx ny nq f :
  shape3 nx ny nq f → shape2 nx ny (get_density f).
Proof.
  intros Hf. apply shape2_intro.
  - unfold get_density. rewrite length_fmap. by destruct Hf.
  - intros x col. unfold get_density, get_density_rows.
    rewrite list_lookup_fmap.
    destruct (f !! x) as [fcol |] eqn:Hx; intros; simplify_eq/=.
    rewrite length_fmap. by destruct (shape3_lookup _ _ _ _ _ _ Hf Hx).
Qed.

Lemma get2_get_macroscopic_velocities f rho x y :
  get2 (get_macroscopic_velocities f rho) x y
  = cell ← get2 f x y; r ← get2 rho x y;
    Some ((λ m, fdiv m r) <$> momentum cell).
Proof. apply get2_zip_with2. Qed.

Lemma length_momentum cell : length (momentum cell) = 2.
Proof. done. Qed.

Lemma shape3_zip_with2 {A B} nx ny nq (op : A → B → list num)
    (a : list (list A)) (b : list (list B)) :
  shape2 nx ny a → shape2 nx ny b → (∀ v w, length (op v w) = nq) →
  shape3 nx ny nq (zip_with (zip_with op) a b).
Proof.
  intros Ha Hb Hop. apply shape3_intro.
  - rewrite length_zip_with. destruct Ha, Hb. lia.
  - intros x col. rewrite lookup_zip_with.
    destruct (a !! x) as [ca |] eqn:Hax; simpl; [| done].
    destruct (b !! x) as [cb |] eqn:Hbx; intros; simplify_eq/=.
    pose proof (shape2_lookup _ _ _ _ _ Ha Hax).
    pose proof (shape2_lookup _ _ _ _ _ Hb Hbx).
    apply shape2_intro; [rewrite length_zip_with; lia |].
    intros y cell. rewrite lookup_zip_with.
    destruct (ca !! y); simpl; [| done].
    destruct (cb !! y); intros; simplify_eq/=. apply Hop.
Qed.

Lemma shape3_as_shape2 {A} nx ny nq (f : list (list (list A))) :
  shape3 nx ny nq f → shape2 nx ny f.
Proof.
  intros Hf. apply shape2_intro; [by destruct Hf |].
  intros x col Hx. by destruct (shape3_lookup _ _ _ _ _ _ Hf Hx).
Qed.

Lemma shape3_get_macroscopic_velocities nx ny nq f rho :
  shape3 nx ny nq f → shape2 nx ny rho →
  shape3 nx ny 2 (get_macroscopic_velocities f rho).
Proof.
  intros Hf Hr. apply shape3_zip_with2; [by eapply shape3_as_shape2 | done |].
  intros. by rewrite length_fmap.
Qed.

Lemma get2_get_equilibrium u rho x y :
  get2 (get_equilibrium_discrete_velocities u rho) x y
  = uxy ← get2 u x y; r ← get2 rho x y; Some (equilibrium_cell uxy r).
Proof. apply get2_zip_with2. Qed.

Lemma shape3_get_equilibrium nx ny nq u rho :
  shape3 nx ny nq u → shape2 nx ny rho →
  shape3 nx ny 9 (get_equilibrium_discrete_velocities u rho).
Proof.
  intros Hu Hr. apply shape3_zip_with2; [by eapply shape3_as_shape2 | done |].
  intros. unfold equilibrium_cell. by rewrite length_imap.
Qed.

Lemma get3_collision omega f feq x y q :
  get3 (collision omega f feq) x y q
  = a ← get3 f x y q; e ← get3 feq x y q;
    Some (fsub a (fmul omega (fsub a e))).
Proof.
  unfold get3, collision. rewrite get2_zip_with2.
  destruct (get2 f x y) as [cell |]; simpl; [| done].
  destruct (get2 feq x y) as [ecell |]; simpl.
  - by rewrite lookup_zip_with.
  - by destruct (cell !! q).
Qed.

Lemma shape3_collision nx ny nq omega f feq :
  shape3 nx ny nq f → shape3 nx ny nq feq →
  shape3 nx ny nq (collision omega f feq).
Proof.
  intros Hf He. apply shape3_intro.
  - unfold collision. rewrite length_zip_with. destruct Hf, He. lia.
  - intros x col. unfold collision. rewrite lookup_zip_with.
    destruct (f !! x) as [ca |] eqn:Hax; simpl; [| done].
    destruct (feq !! x) as [cb |] eqn:Hbx; intros; simplify_eq/=.
    pose proof (shape3_lookup _ _ _ _ _ _ Hf Hax) as Hsa.
    pose proof (shape3_lookup _ _ _ _ _ _ He Hbx) as Hsb.
    apply shape2_intro; [rewrite length_zip_with; destruct Hsa, Hsb; lia |].
    intros y cell. rewrite lookup_zip_with.
    destruct (ca !! y) as [c |] eqn:Hc; simpl; [| done].
    destruct (cb !! y) as [e |] eqn:He'; intros; simplify_eq/=.
    rewrite length_zip_with.
    pose proof (shape2_lookup _ _ _ _ _ Hsa Hc).
    pose proof (shape2_lookup _ _ _ _ _ Hsb He'). lia.
Qed.
End ElementwiseFacts.

(** ** Inflow patch *)

Section InflowFacts.
Context {num : Type} `{Arith num}.
Implicit Types (f g feq u vp : list (list (list num))).
Implicit Types (rho : list (list num)) (col : list (list num)).
Implicit Types (cell uxy : list num) (dirs : list nat).

Lemma get2_inflow_velocity nx ny vp u x y :
  shape3 nx ny 2 vp → shape3 nx ny 2 u → 0 < nx →
  get2 (inflow_velocity vp u) x y
  = if decide (x = 0 ∧ 1 ≤ y ∧ S y < ny) then get2 vp 0 y else get2 u x y.
Proof.
  intros Hvp Hu Hnx. unfold get2 at 1, inflow_velocity.
  rewrite list_lookup_alter.
  destruct (decide (0 = x)) as [<- | Hne];
    [| by rewrite decide_False by (intros (? & ? & ?); done)].
  destruct (lookup_lt_is_Some_2 u 0) as [col Hcol]; [destruct Hu; lia |].
  destruct (lookup_lt_is_Some_2 vp 0) as [vcol Hvcol]; [destruct Hvp; lia |].
  destruct (shape3_lookup _ _ _ _ _ _ Hu Hcol) as [Hlc _].
  destruct (shape3_lookup _ _ _ _ _ _ Hvp Hvcol) as [Hlv _].
  rewrite Hcol. simpl.
  rewrite (list_lookup_total_correct vp 0 vcol Hvcol).
  unfold get2. rewrite Hcol, Hvcol. simpl.
  destruct (decide (0 = 0 ∧ 1 ≤ y ∧ S y < ny)) as [(_ & Hy1 & Hy2) | Hn].
  - apply lookup_set_inner_rows_inner; lia.
  - apply lookup_set_inner_rows_corner; lia.
Qed.

Lemma shape3_inflow_velocity nx ny vp u :
  shape3 nx ny 2 vp → shape3 nx ny 2 u → 0 < nx →
  shape3 nx ny 2 (inflow_velocity vp u).
Proof.
  intros Hvp Hu Hnx. apply shape3_intro.
  - unfold inflow_velocity. rewrite length_alter. by destruct Hu.
  - intros x col2. unfold inflow_velocity. rewrite list_lookup_alter.
    destruct (decide (0 = x)) as [<- | Hne];
      [| exact (shape3_lookup _ _ _ _ _ _ Hu)].
    destruct (lookup_lt_is_Some_2 vp 0) as [vcol Hvcol];
      [destruct Hvp; lia |].
    rewrite (list_lookup_total_correct vp 0 vcol Hvcol).
    destruct (u !! 0) as [col |] eqn:Hcol; intros; simplify_eq/=.
    destruct (shape3_lookup _ _ _ _ _ _ Hu Hcol) as [Hlc Hcc].
    destruct (shape3_lookup _ _ _ _ _ _ Hvp Hvcol) as [Hlv Hvc].
    split.
    + rewrite length_set_inner_rows; [done |].
      rewrite length_inner_rows. lia.
    + unfold set_inner_rows, inner_rows.
      repeat apply Forall_app_2;
        auto using Forall_take, Forall_drop.
Qed.

Lemma components_rows col dirs y cell :
  col !! y = Some cell →
  (λ row : list num, row !!! y)
    <$> ((λ k : nat, (λ c : list num, c !!! k) <$> col) <$> dirs)
  = components dirs cell.
Proof.
  intros Hcell. unfold components.
  rewrite <- list_fmap_compose.
  apply list_fmap_ext. intros _ k' _. simpl.
  rewrite (list_lookup_total_fmap (λ c : list num, c !!! k') col y)
    by by eapply lookup_lt_Some.
  by rewrite (list_lookup_total_correct col y cell Hcell).
Qed.

(** Row [y] of [f[x, :, dirs].T]. *)
Lemma lookup_transpose_index_col f x col dirs y cell :
  dirs ≠ [] → f !! x = Some col → col !! y = Some cell →
  transpose (index_col f x dirs) !! y = Some (components dirs cell).
Proof.
  intros Hd Hcol Hcell. unfold index_col.
  rewrite (list_lookup_total_correct f x col Hcol).
  destruct dirs as [| k dirs]; [done |].
  unfold transpose. rewrite fmap_cons, length_fmap, list_lookup_fmap.
  rewrite lookup_seq_lt by by eapply lookup_lt_Some.
  simpl. f_equal. exact (components_rows col (k :: dirs) y cell Hcell).
Qed.

Lemma length_transpose_index_col f x col k dirs :
  f !! x = Some col →
  length (transpose (index_col f x (k :: dirs))) = length col.
Proof.
  intros Hcol. unfold index_col.
  rewrite (list_lookup_total_correct f x col Hcol).
  unfold transpose. by rewrite fmap_cons, !length_fmap, length_seq.
Qed.

Lemma lookup_zou_he_density f u fcol ucol y cell uxy :
  f !! 0 = Some fcol → u !! 0 = Some ucol →
  fcol !! y = Some cell → ucol !! y = Some uxy →
  zou_he_density f u !! y
  = Some (fdiv (fadd (fsum (components PURE_VERTICAL_VELOCITIES cell))
                     (fmul (ofZ 2)
                           (fsum (components LEFT_VELOCITIES cell))))
               (fsub (ofZ 1) (uxy !!! 0))).
Proof.
  intros Hf Hu Hcell Huxy. unfold zou_he_density, get_density_rows.
  rewrite !lookup_zip_with, !list_lookup_fmap.
  rewrite !(lookup_transpose_index_col f 0 fcol _ y cell) by done.
  rewrite (list_lookup_total_correct u 0 ucol Hu), Huxy. done.
Qed.

Lemma length_zou_he_density f u fcol ucol :
  f !! 0 = Some fcol → u !! 0 = Some ucol → length ucol = length fcol →
  length (zou_he_density f u) = length fcol.
Proof.
  intros Hf Hu Hl. unfold zou_he_density, get_density_rows.
  rewrite !length_zip_with, !length_fmap.
  unfold PURE_VERTICAL_VELOCITIES, LEFT_VELOCITIES.
  rewrite !(length_transpose_index_col f 0 fcol) by done.
  rewrite (list_lookup_total_correct u 0 ucol Hu). lia.
Qed.

Lemma get2_inflow_density f u rho x y :
  0 < length rho →
  get2 (inflow_density f u rho) x y
  = if decide (x = 0) then zou_he_density f u !! y else get2 rho x y.
Proof.
  intros Hr. unfold get2 at 1, inflow_density.
  destruct (decide (x = 0)) as [-> | Hne].
  - by rewrite list_lookup_insert_eq.
  - by rewrite list_lookup_insert_ne.
Qed.

Lemma shape2_inflow_density nx ny f u rho :
  shape3 nx ny 9 f → shape3 nx ny 2 u → shape2 nx ny rho → 0 < nx →
  shape2 nx ny (inflow_density f u rho).
Proof.
  intros Hf Hu Hr Hnx. apply shape2_intro.
  - unfold inflow_density. rewrite length_insert. by destruct Hr.
  - intros x col. unfold inflow_density.
    destruct (decide (x = 0)) as [-> | Hne].
    + rewrite list_lookup_insert_eq by (destruct Hr; lia).
      intros [= <-].
      destruct (lookup_lt_is_Some_2 f 0) as [fcol Hfcol];
        [destruct Hf; lia |].
      destruct (lookup_lt_is_Some_2 u 0) as [ucol Hucol];
        [destruct Hu; lia |].
      destruct (shape3_lookup _ _ _ _ _ _ Hf Hfcol) as [Hlf _].
      destruct (shape3_lookup _ _ _ _ _ _ Hu Hucol) as [Hlu _].
      rewrite (length_zou_he_density f u fcol ucol); (done || lia).
    + rewrite list_lookup_insert_ne by done.
      exact (shape2_lookup _ _ _ _ _ Hr).
Qed.
End InflowFacts.

(** ** Stages of one step *)

Section StepFacts.
Context {num : Type} `{Arith num}.
Variable omega : num.
Variable mask : list (list bool).
Variable vp : list (list (list num)).
Implicit Types f g : list (list (list num)).

Lemma norm_index_last n : norm_index n (-1) = n - 1.
Proof. unfold norm_index. simpl. lia. Qed.

Lemma norm_index_before_last n : norm_index n (-2) = n - 2.
Proof. unfold norm_index. simpl. lia. Qed.

Lemma shape3_outflow nx ny f :
  shape3 nx ny 9 f → 0 < nx → shape3 nx ny 9 (outflow f).
Proof.
  intros Hf Hnx. unfold outflow.
  apply shape3_at_col_set; [done.. |].
  rewrite norm_index_before_last. destruct Hf. lia.
Qed.

Lemma shape3_inlet_u nx ny g :
  shape3 nx ny 9 g → shape3 nx ny 2 vp → 0 < nx →
  shape3 nx ny 2 (inlet_u vp g).
Proof.
  intros Hf Hvp Hnx. unfold inlet_u.
  apply shape3_inflow_velocity; [done | | done].
  eapply shape3_get_macroscopic_velocities; [done |].
  by eapply shape2_get_density.
Qed.

Lemma shape2_inlet_rho nx ny g :
  shape3 nx ny 9 g → shape3 nx ny 2 vp → 0 < nx →
  shape2 nx ny (inlet_rho vp g).
Proof.
  intros Hf Hvp Hnx. unfold inlet_rho.
  apply shape2_inflow_density; [done | by apply shape3_inlet_u | | done].
  by eapply shape2_get_density.
Qed.

Lemma shape3_inlet_feq nx ny g :
  shape3 nx ny 9 g → shape3 nx ny 2 vp → 0 < nx →
  shape3 nx ny 9 (inlet_feq vp g).
Proof.
  intros Hf Hvp Hnx. unfold inlet_feq.
  eapply shape3_get_equilibrium;
    [by apply shape3_inlet_u | by apply shape2_inlet_rho].
Qed.

Lemma shape3_inlet_field nx ny g :
  shape3 nx ny 9 g → shape3 nx ny 2 vp → 0 < nx →
  shape3 nx ny 9 (inlet_field vp g).
Proof.
  intros Hf Hvp Hnx. unfold inlet_field, inflow_field.
  apply shape3_at_col_set; [done | by apply shape3_inlet_feq | done].
Qed.

Lemma shape3_post_collision nx ny g :
  shape3 nx ny 9 g → shape3 nx ny 2 vp → shape2 nx ny mask → 0 < nx →
  shape3 nx ny 9 (post_collision omega mask vp g).
Proof.
  intros Hf Hvp Hm Hnx. unfold post_collision, bounce_back.
  apply shape3_bounce_fold; [done | by apply shape3_inlet_field |].
  apply shape3_collision;
    [by apply shape3_inlet_field | by apply shape3_inlet_feq].
Qed.

Lemma update_stages f :
  update omega mask vp f
  = streaming (post_collision omega mask vp (outflow f)).
Proof. reflexivity. Qed.

(** One step maps well-shaped fields to well-shaped fields. *)
Lemma shape3_update nx ny f :
  shape3 nx ny 9 f → shape3 nx ny 2 vp → shape2 nx ny mask → 0 < nx →
  shape3 nx ny 9 (update omega mask vp f).
Proof.
  intros Hf Hvp Hm Hnx. rewrite update_stages.
  apply shape3_streaming, shape3_post_collision; try done.
  by apply shape3_outflow.
Qed.
End StepFacts.

(** * One step: boundary patches, bounce-back, streaming *)

(** Shape side conditions on concrete arrays. *)
Ltac shape_tac := repeat (split || constructor).

(** ** The streaming stage *)

(** C3: streaming is periodic index remapping.  On a field of shape
    [(nx, ny, 9)], entry [(x, y, q)] of the streamed field is entry
    [((x - dx_q) mod nx, (y - dy_q) mod ny, q)] of the post-collision field,
    where [(dx_q, dy_q)] is the displacement of direction [q]; both axes
    wrap around, and the entry exists. *)
Theorem streaming_periodic {num : Type} `{Arith num}
    (nx ny : nat) (f_post : list (list (list num))) (x y q : nat) :
  shape3 nx ny 9 f_post → x < nx → y < ny → q < 9 →
  get3 (streaming f_post) x y q
  = get3 f_post
      (Z.to_nat ((Z.of_nat x - lattice_velocity 0 q) mod Z.of_nat nx))
      (Z.to_nat ((Z.of_nat y - lattice_velocity 1 q) mod Z.of_nat ny))
      q
  ∧ is_Some (get3 (streaming f_post) x y q).
Proof.
  intros Hf Hx Hy Hq. split.
  - unfold streaming.
    rewrite (get3_streaming_fold nx ny) by done.
    rewrite decide_True; [done |].
    apply list_elem_of_In, in_seq. unfold N_DISCRETE_VELOCITIES. lia.
  - apply (shape3_get nx ny 9); [by apply shape3_streaming | done..].
Qed.

Lemma streaming_periodic_witness :
  shape3 3 4 9 (sample_field 3 4)
  ∧ get3 (streaming (sample_field 3 4)) 0 0 5
    = get3 (sample_field 3 4) 2 3 5.
Proof.
  split; [shape_tac |].
  apply (streaming_periodic 3 4 (sample_field 3 4) 0 0 5); [shape_tac | lia..].
Defined.

(** ** The outflow patch *)

(** C7: the outflow patch comes first in a step (the rest of [update] sees
    its input only through [outflow]); in the last column [x = nx - 1] it
    replaces the three leftward components by those of column [nx - 2], and
    it leaves every other entry of the field as it was. *)
Theorem outflow_patch {num : Type} `{Arith num}
    (omega : num) (mask : list (list bool)) (vp : list (list (list num)))
    (nx ny : nat) (f : list (list (list num))) (x y q : nat) :
  shape3 nx ny 9 f → 2 ≤ nx → x < nx → y < ny → q < 9 →
  update omega mask vp f = streaming (post_collision omega mask vp (outflow f))
  ∧ get3 (outflow f) x y q
    = (if decide (x = nx - 1 ∧ q ∈ LEFT_VELOCITIES)
       then get3 f (nx - 2) y q
       else get3 f x y q)
  ∧ is_Some (get3 (outflow f) x y q).
Proof.
  intros Hf Hnx Hx Hy Hq. split; [reflexivity |]. split.
  - unfold outflow. destruct Hf as [Hlen Hcols]. rewrite Hlen.
    rewrite norm_index_last, norm_index_before_last.
    apply (get3_at_col_set nx ny); (by split) || lia.
  - apply (shape3_get nx ny 9); [apply shape3_outflow; (done || lia) | done..].
Qed.

Lemma outflow_patch_witness :
  get3 (outflow (sample_field 3 2)) 2 1 6 = get3 (sample_field 3 2) 1 1 6
  ∧ get3 (outflow (sample_field 3 2)) 2 1 5 = get3 (sample_field 3 2) 2 1 5.
Proof.
  split.
  - apply (outflow_patch (Q2Qc 1) [] [] 3 2 (sample_field 3 2) 2 1 6);
      [shape_tac | lia..].
  - apply (outflow_patch (Q2Qc 1) [] [] 3 2 (sample_field 3 2) 2 1 5);
      [shape_tac | lia..].
Defined.

(** ** The inflow patch *)

Section InletFacts.
Context {num : Type} `{Arith num}.
Variable vp : list (list (list num)).
Implicit Types f g : list (list (list num)).

(** [u] after line 68. *)
Lemma get2_inlet_u nx ny g x y :
  shape3 nx ny 9 g → shape3 nx ny 2 vp → 0 < nx →
  get2 (inlet_u vp g) x y
  = if decide (x = 0 ∧ 1 ≤ y ∧ S y < ny) then get2 vp 0 y
    else cell ← get2 g x y; Some ((λ m, fdiv m (fsum cell)) <$> momentum cell).
Proof.
  intros Hg Hvp Hnx. unfold inlet_u.
  rewrite (get2_inflow_velocity nx ny); [| done | | done].
  2:{ eapply shape3_get_macroscopic_velocities; [done |].
      by eapply shape2_get_density. }
  case_decide; [done |].
  rewrite get2_get_macroscopic_velocities, get2_get_density.
  by destruct (get2 g x y).
Qed.

(** [rho] after line 72, column 0. *)
Lemma get2_inlet_rho_col0 nx ny g y cell uxy :
  shape3 nx ny 9 g → shape3 nx ny 2 vp → 0 < nx →
  get2 g 0 y = Some cell → get2 (inlet_u vp g) 0 y = Some uxy →
  get2 (inlet_rho vp g) 0 y
  = Some (fdiv (fadd (fsum (components PURE_VERTICAL_VELOCITIES cell))
                     (fmul (ofZ 2)
                           (fsum (components LEFT_VELOCITIES cell))))
               (fsub (ofZ 1) (uxy !!! 0))).
Proof.
  intros Hg Hvp Hnx Hcell Huxy. unfold inlet_rho.
  rewrite get2_inflow_density.
  2:{ unfold get_density. rewrite length_fmap. destruct Hg. lia. }
  rewrite decide_True by done.
  unfold get2 in Hcell, Huxy.
  destruct (g !! 0) as [gcol |] eqn:Hgcol; [| done].
  destruct (inlet_u vp g !! 0) as [ucol |] eqn:Hucol; [| done].
  by apply (lookup_zou_he_density g (inlet_u vp g) gcol ucol).
Qed.
End InletFacts.

(** C1: the inflow stage.  Let [f1] be the field the inflow stage works on
    ([f_prev] after the outflow patch).  (i) At column 0 the velocity of
    every row except the first and the last is the prescribed profile.
    (ii) At every row [y] of column 0 the density is
    [(sum of the pure-vertical components of f1[0,y]
      + 2 * sum of the leftward components of f1[0,y]) / (1 - u_x[0,y])],
    with [u] the velocity field of (i).  (iii) The field is then changed
    exactly at the three rightward components of column 0, which take the
    equilibrium values computed from this [u] and [rho]. *)
Theorem inflow_zou_he {num : Type} `{Arith num}
    (vp : list (list (list num))) (nx ny : nat)
    (f1 : list (list (list num))) :
  shape3 nx ny 9 f1 → shape3 nx ny 2 vp → 0 < nx →
  (∀ y, 1 ≤ y → S y < ny → get2 (inlet_u vp f1) 0 y = get2 vp 0 y)
  ∧ (∀ y, y < ny →
       ∃ cell uxy,
         get2 f1 0 y = Some cell ∧ get2 (inlet_u vp f1) 0 y = Some uxy
         ∧ get2 (inlet_rho vp f1) 0 y
           = Some (fdiv
                     (fadd (fsum (components PURE_VERTICAL_VELOCITIES cell))
                           (fmul (ofZ 2)
                                 (fsum (components LEFT_VELOCITIES cell))))
                     (fsub (ofZ 1) (uxy !!! 0))))
  ∧ (∀ x y q, x < nx → y < ny → q < 9 →
       get3 (inlet_field vp f1) x y q
       = if decide (x = 0 ∧ q ∈ RIGHT_VELOCITIES)
         then get3 (get_equilibrium_discrete_velocities
                      (inlet_u vp f1) (inlet_rho vp f1)) 0 y q
         else get3 f1 x y q).
Proof.
  intros Hf Hvp Hnx. split; [| split].
  - intros y Hy1 Hy2. rewrite (get2_inlet_u vp nx ny) by done.
    by rewrite decide_True.
  - intros y Hy.
    destruct (shape3_cell _ _ _ _ _ _ Hf Hnx Hy) as (cell & Hcell & _).
    destruct (shape3_cell _ _ _ _ _ _ (shape3_inlet_u vp nx ny f1 Hf Hvp Hnx)
                Hnx Hy) as (uxy & Huxy & _).
    exists cell, uxy. split; [done |]. split; [done |].
    by apply (get2_inlet_rho_col0 vp nx ny).
  - intros x y q Hx Hy Hq. unfold inlet_field, inflow_field.
    apply (get3_at_col_set nx ny); try done.
    by apply shape3_inlet_feq.
Qed.

(** C9: the density recomputation covers the two corner rows of column 0
    as well, and there the divisor [1 - u_x] is built from the velocity
    extracted from the field itself ([momentum / density] of that cell),
    the profile overwrite having skipped these rows. *)
Theorem inflow_corner_rows {num : Type} `{Arith num}
    (vp : list (list (list num))) (nx ny : nat)
    (f1 : list (list (list num))) (y : nat) (cell : list num) :
  shape3 nx ny 9 f1 → shape3 nx ny 2 vp → 0 < nx →
  y = 0 ∨ S y = ny → get2 f1 0 y = Some cell →
  get2 (inlet_u vp f1) 0 y
  = Some ((λ m, fdiv m (fsum cell)) <$> momentum cell)
  ∧ get2 (inlet_rho vp f1) 0 y
    = Some (fdiv (fadd (fsum (components PURE_VERTICAL_VELOCITIES cell))
                       (fmul (ofZ 2)
                             (fsum (components LEFT_VELOCITIES cell))))
                 (fsub (ofZ 1)
                       (fdiv (fsum (zip_with (λ fq c, fmul fq (ofZ c)) cell
                                      (LATTICE_VELOCITIES !!! 0)))
                             (fsum cell)))).
Proof.
  intros Hf Hvp Hnx Hy Hcell.
  assert (Hu : get2 (inlet_u vp f1) 0 y
               = Some ((λ m, fdiv m (fsum cell)) <$> momentum cell)).
  { rewrite (get2_inlet_u vp nx ny) by done.
    rewrite decide_False by lia. by rewrite Hcell. }
  split; [done |].
  by rewrite (get2_inlet_rho_col0 vp nx ny f1 y cell _ Hf Hvp Hnx Hcell Hu).
Qed.

Lemma inflow_zou_he_witness :
  get2 (inlet_u (sample_profile 2 3 0.04) (sample_field 2 3)) 0 1
  = Some [Q2Qc 0.04; Q2Qc 0].
Proof.
  apply (inflow_zou_he (sample_profile 2 3 0.04) 2 3 (sample_field 2 3));
    [shape_tac | shape_tac | lia..].
Defined.

Lemma inflow_corner_rows_witness :
  get2 (inlet_u (sample_profile 2 3 0.04) (sample_field 2 3)) 0 0
  = Some ((λ m, fdiv m (fsum (Q2Qc <$> [1; 2; 3; 4; 5; 6; 7; 8; 9]%Q)))
            <$> momentum (Q2Qc <$> [1; 2; 3; 4; 5; 6; 7; 8; 9]%Q)).
Proof.
  apply (inflow_corner_rows (sample_profile 2 3 0.04) 2 3
           (sample_field 2 3) 0 (Q2Qc <$> [1; 2; 3; 4; 5; 6; 7; 8; 9]%Q));
    [shape_tac | shape_tac | lia | by left | reflexivity].
Defined.

(** At a corner row the divisor is not the one of the prescribed profile:
    on the sample field the extracted [u_x] at [(0, 0)] is [-2/45], the
    profile prescribes [1/25]. *)
Example inflow_corner_not_profile :
  (λ uxy : list Qc, uxy !!! 0)
    <$> get2 (inlet_u (sample_profile 2 3 0.04) (sample_field 2 3)) 0 0
  = Some (Q2Qc (-2 # 45))
  ∧ (λ uxy : list Qc, uxy !!! 0) <$> get2 (sample_profile 2 3 0.04) 0 0
    = Some (Q2Qc (1 # 25)).
Proof. split; apply (bool_decide_unpack _); vm_compute; exact I. Qed.

(** ** Obstacle bounce-back *)

(** The cell of [f_post] after line 82: reflected when masked, the collision
    result otherwise. *)
Lemma get2_post_collision {num : Type} `{Arith num}
    (omega : num) (mask : list (list bool)) (vp : list (list (list num)))
    (nx ny : nat) (f1 : list (list (list num))) (x y : nat) (b : bool) :
  shape3 nx ny 9 f1 → shape3 nx ny 2 vp → shape2 nx ny mask → 0 < nx →
  get2 mask x y = Some b →
  ∃ cell s,
    get2 (collision omega (inlet_field vp f1) (inlet_feq vp f1)) x y
    = Some cell
    ∧ get2 (inlet_field vp f1) x y = Some s
    ∧ length cell = 9 ∧ length s = 9
    ∧ get2 (post_collision omega mask vp f1) x y
      = Some (if b
              then foldl (λ c i,
                            <[LATTICE_INDICES !!! i
                              := s !!! (OPPOSITE_LATTICE_INDICES !!! i)]> c)
                         cell (seq 0 N_DISCRETE_VELOCITIES)
              else cell).
Proof.
  intros Hf Hvp Hm Hnx Hb.
  assert (x < nx ∧ y < ny) as [Hx Hy].
  { unfold get2 in Hb. destruct (mask !! x) as [m |] eqn:Hmx; [| done].
    pose proof (lookup_lt_Some _ _ _ Hmx).
    pose proof (lookup_lt_Some _ _ _ Hb).
    pose proof (shape2_lookup _ _ _ _ _ Hm Hmx). destruct Hm. lia. }
  pose proof (shape3_inlet_field vp nx ny f1 Hf Hvp Hnx) as Hprev.
  pose proof (shape3_inlet_feq vp nx ny f1 Hf Hvp Hnx) as Hfeq.
  pose proof (shape3_collision nx ny 9 omega _ _ Hprev Hfeq) as Hpost.
  destruct (shape3_cell _ _ _ _ _ _ Hprev Hx Hy) as (s & Hs & Hls).
  destruct (shape3_cell _ _ _ _ _ _ Hpost Hx Hy) as (cell & Hcell & Hlc).
  exists cell, s. repeat (split; [done |]).
  unfold post_collision, bounce_back.
  by apply (get2_bounce_fold nx ny).
Qed.

(** C2: after the bounce-back loop, a masked cell holds in every direction
    [q] the pre-collision value of its opposite direction, whatever collision
    had put there; an unmasked cell holds the collision result.  The
    pre-collision field is [f_prev] after the inflow patch. *)
Theorem bounce_back_reflection {num : Type} `{Arith num}
    (omega : num) (mask : list (list bool)) (vp : list (list (list num)))
    (nx ny : nat) (f1 : list (list (list num))) (x y q : nat) (b : bool) :
  shape3 nx ny 9 f1 → shape3 nx ny 2 vp → shape2 nx ny mask → 0 < nx →
  q < 9 → get2 mask x y = Some b →
  get3 (post_collision omega mask vp f1) x y q
  = (if b
     then get3 (inlet_field vp f1) x y (opposite q)
     else get3 (collision omega (inlet_field vp f1) (inlet_feq vp f1)) x y q)
  ∧ is_Some (get3 (post_collision omega mask vp f1) x y q).
Proof.
  intros Hf Hvp Hm Hnx Hq Hb.
  destruct (get2_post_collision omega mask vp nx ny f1 x y b Hf Hvp Hm Hnx Hb)
    as (cell & s & Hcell & Hs & Hlc & Hls & Hpc).
  assert (Heq : get3 (post_collision omega mask vp f1) x y q
                = if b
                  then get3 (inlet_field vp f1) x y (opposite q)
                  else get3 (collision omega (inlet_field vp f1)
                                       (inlet_feq vp f1)) x y q).
  { unfold get3. rewrite Hpc, Hs, Hcell. cbn [mbind option_bind].
    destruct b; [by apply lookup_reflect_cell | done]. }
  split; [done |]. rewrite Heq. unfold get3. rewrite Hs, Hcell.
  cbn [mbind option_bind].
  destruct b; apply lookup_lt_is_Some_2; [| lia].
  rewrite Hls. unfold opposite.
  do 9 (destruct q as [| q]; [cbn; lia |]). lia.
Qed.

Lemma bounce_back_reflection_witness :
  get3 (post_collision (Q2Qc (3 # 2)) sample_mask (sample_profile 3 3 0.04)
          (sample_field 3 3)) 1 1 1
  = get3 (sample_field 3 3) 1 1 3.
Proof.
  apply (bounce_back_reflection (Q2Qc (3 # 2)) sample_mask
           (sample_profile 3 3 0.04) 3 3 (sample_field 3 3) 1 1 1 true);
    [shape_tac | shape_tac | shape_tac | lia | lia | reflexivity].
Defined.

(** * Lattice and equilibrium in exact arithmetic *)

(** The weight table as rationals: the binary32 numbers nearest to [4/9],
    [1/9] and [1/36]. *)
Lemma LATTICE_WEIGHTS_Qc :
  (LATTICE_WEIGHTS : list Qc)
  = Q2Qc <$> [14913081 # 33554432;
              14913081 # 134217728; 14913081 # 134217728;
              14913081 # 134217728; 14913081 # 134217728;
              14913081 # 536870912; 14913081 # 536870912;
              14913081 # 536870912; 14913081 # 536870912]%Q.
Proof. apply (bool_decide_unpack _). vm_compute. exact I. Qed.



(** Unfold the arithmetic interface at [Qc] down to the field operations. *)
Ltac qc_ops :=
  cbv [fsum foldl fsq fadd fsub fmul fdiv ofZ ofQ Qc_arith] in *;
  change (Q2Qc (inject_Z 0)) with 0%Qc in *;
  change (Q2Qc (inject_Z 1)) with 1%Qc in *.

(** C4: in exact arithmetic, entry [(x, y, q)] of the equilibrium field is
    [rho * w_q * (1 + 3 (c_q . u) + 4.5 (c_q . u)^2 - 1.5 |u|^2)] with
    [rho] and [u = (ux, uy)] the density and velocity of cell [(x, y)],
    [c_q] the vector of direction [q] and [w_q] its weight.  The function is
    a closed term of its two arguments. *)
Theorem equilibrium_formula (u : list (list (list Qc)))
    (rho : list (list Qc)) (x y q : nat) (ux uy r : Qc) :
  get2 u x y = Some [ux; uy] → get2 rho x y = Some r → q < 9 →
  let cu := (Q2Qc (inject_Z (c_x q)) * ux + Q2Qc (inject_Z (c_y q)) * uy)%Qc in
  ∃ w : Qc,
    LATTICE_WEIGHTS !! q = Some w
    ∧ get3 (get_equilibrium_discrete_velocities u rho) x y q
      = Some (r * w * (1 + Q2Qc 3 * cu + Q2Qc 4.5 * (cu * cu)
                       - Q2Qc 1.5 * (ux * ux + uy * uy)))%Qc.
Proof.
  intros Hu Hr Hq cu.
  destruct (lookup_lt_is_Some_2 (LATTICE_WEIGHTS : list Qc) q) as [w Hw];
    [done |].
  exists w. split; [done |].
  unfold get3. rewrite get2_get_equilibrium, Hu, Hr. cbn [mbind option_bind].
  unfold equilibrium_cell. rewrite list_lookup_imap, Hw. cbn [fmap option_fmap option_map].
  f_equal. unfold equilibrium_value, proj, norm_sq.
  change (lattice_vector q) with [c_x q; c_y q].
  cbn [fmap list_fmap zip_with]. subst cu. qc_ops.
  change (Q2Qc (inject_Z 3)) with (Q2Qc 3).
  generalize (Q2Qc (inject_Z (c_x q))) (Q2Qc (inject_Z (c_y q))).
  intros cx cy. ring.
Qed.

Lemma equilibrium_formula_witness :
  ∃ w : Qc,
    LATTICE_WEIGHTS !! 1 = Some w
    ∧ get3 (get_equilibrium_discrete_velocities
              (sample_profile 2 2 0.04) (replicate 2 (replicate 2 (Q2Qc 1))))
           0 0 1
      = Some (Q2Qc 1 * w
              * (1 + Q2Qc 3 * (Q2Qc (inject_Z (c_x 1)) * Q2Qc 0.04
                               + Q2Qc (inject_Z (c_y 1)) * Q2Qc 0)
                 + Q2Qc 4.5
                   * ((Q2Qc (inject_Z (c_x 1)) * Q2Qc 0.04
                       + Q2Qc (inject_Z (c_y 1)) * Q2Qc 0)
                      * (Q2Qc (inject_Z (c_x 1)) * Q2Qc 0.04
                         + Q2Qc (inject_Z (c_y 1)) * Q2Qc 0))
                 - Q2Qc 1.5 * (Q2Qc 0.04 * Q2Qc 0.04 + Q2Qc 0 * Q2Qc 0)))%Qc.
Proof.
  apply (equilibrium_formula (sample_profile 2 2 0.04)
           (replicate 2 (replicate 2 (Q2Qc 1))) 0 0 1
           (Q2Qc 0.04) (Q2Qc 0) (Q2Qc 1));
    [reflexivity | reflexivity | lia].
Defined.

(** The value at that entry: [1 * w_1 * (1 + 0.12 + 0.0072 - 0.0024)] with
    [w_1] the stored weight of direction 1. *)
Example equilibrium_value_inlet :
  get3 (get_equilibrium_discrete_velocities
          (sample_profile 2 2 0.04) (replicate 2 (replicate 2 (Q2Qc 1))))
       0 0 1
  = Some (Q2Qc (14913081 # 134217728) * Q2Qc (703 # 625))%Qc.
Proof. apply (bool_decide_unpack _). vm_compute. exact I. Qed.

(** ** Spatially uniform fields *)

Section UniformFacts.
Context {num : Type} `{Arith num}.
Implicit Types (c e : list num) (f g : list (list (list num))).






Lemma get_density_uniform nx ny c :
  get_density (replicate nx (replicate ny c))
  = replicate nx (replicate ny (fsum c)).
Proof. unfold get_density, get_density_rows. by rewrite !fmap_replicate. Qed.

Lemma get_macroscopic_velocities_uniform nx ny c (r : num) :
  get_macroscopic_velocities (replicate nx (replicate ny c))
                             (replicate nx (replicate ny r))
  = replicate nx (replicate ny ((λ m, fdiv m r) <$> momentum c)).
Proof. unfold get_macroscopic_velocities. by rewrite !zip_with_replicate. Qed.

Lemma get_equilibrium_uniform nx ny c (r : num) :
  get_equilibrium_discrete_velocities (replicate nx (replicate ny c))
                                      (replicate nx (replicate ny r))
  = replicate nx (replicate ny (equilibrium_cell c r)).
Proof.
  unfold get_equilibrium_discrete_velocities. by rewrite !zip_with_replicate.
Qed.


(** An all-false mask selects nothing and writes nothing. *)
Lemma mask_put_col_no_obstacle q ny col (vals : list num) :
  mask_put_col q (replicate ny false) col vals = (col, vals).
Proof.
  revert col. induction ny as [| ny IH]; intros [| cell col]; try done.
  simpl. by rewrite IH.
Qed.

Lemma mask_scatter_no_obstacle q nx ny f (vals : list num) :
  mask_scatter q (replicate nx (replicate ny false)) f vals = f.
Proof.
  revert f vals. induction nx as [| nx IH]; intros [| col f] vals; try done.
  simpl. by rewrite mask_put_col_no_obstacle, IH.
Qed.

Lemma bounce_back_no_obstacle nx ny g f :
  bounce_back (replicate nx (replicate ny false)) g f = f.
Proof.
  unfold bounce_back. generalize (seq 0 N_DISCRETE_VELOCITIES). intros l.
  revert f. induction l as [| i l IH]; intros f; [done |].
  cbn [foldl]. by rewrite mask_scatter_no_obstacle.
Qed.
End UniformFacts.

(** ** Rest equilibrium in exact arithmetic *)
















(** * Setup: obstacle mask and relaxation frequency *)

(** ** The obstacle mask *)

(** The integer test of [sqrt_lt] decides the comparison of the real square
    root with the radius. *)
Lemma sqrt_lt_spec (d2 r : Z) :
  (0 ≤ d2)%Z → sqrt_lt d2 r = true ↔ (sqrt (IZR d2) < IZR r)%R.
Proof.
  intros Hd. unfold sqrt_lt.
  rewrite andb_true_iff, !Z.ltb_lt.
  assert (Hd' : (0 <= IZR d2)%R) by (apply IZR_le; lia).
  split.
  - intros [Hr Hlt].
    assert (Hr' : (0 <= IZR r)%R) by (apply IZR_le; lia).
    rewrite <- (sqrt_square (IZR r)) by done.
    apply sqrt_lt_1_alt. split; [done |].
    rewrite <- mult_IZR. by apply IZR_lt.
  - intros Hs.
    pose proof (sqrt_pos (IZR d2)) as Hp.
    pose proof (sqrt_sqrt (IZR d2) Hd') as Hsq.
    assert (Hr' : (0 < IZR r)%R) by lra.
    split; [by apply lt_IZR |].
    apply lt_IZR. rewrite mult_IZR. nra.
Qed.

Lemma dist_sq_nonneg cfg x y : (0 ≤ dist_sq cfg x y)%Z.
Proof. unfold dist_sq. nia. Qed.

Lemma get2_obstacle_mask cfg x y :
  x < N_POINTS_X cfg → y < N_POINTS_Y cfg →
  get2 (obstacle_mask cfg) x y
  = Some (sqrt_lt (dist_sq cfg x y) (CYLINDER_RADIUS_INDICES cfg)).
Proof.
  intros Hx Hy. unfold get2, obstacle_mask.
  rewrite list_lookup_fmap, lookup_seq_lt by done. cbn [fmap option_fmap option_map mbind option_bind].
  by rewrite list_lookup_fmap, lookup_seq_lt.
Qed.

Lemma shape2_obstacle_mask cfg :
  shape2 (N_POINTS_X cfg) (N_POINTS_Y cfg) (obstacle_mask cfg).
Proof.
  apply shape2_intro.
  - unfold obstacle_mask. by rewrite length_fmap, length_seq.
  - intros x col. unfold obstacle_mask. rewrite list_lookup_fmap.
    destruct (seq 0 (N_POINTS_X cfg) !! x); intros; simplify_eq/=.
    by rewrite length_fmap, length_seq.
Qed.

(** C10: a grid cell is masked exactly when its Euclidean distance from the
    cylinder centre is strictly below the radius.  A cell at distance equal
    to the radius is therefore fluid: its mask entry is [false] and after
    the bounce-back loop it still holds the collision result. *)
Theorem obstacle_mask_strict {num : Type} `{Arith num}
    (cfg : config) (omega : num) (vp f1 : list (list (list num)))
    (x y q : nat) :
  shape3 (N_POINTS_X cfg) (N_POINTS_Y cfg) 9 f1 →
  shape3 (N_POINTS_X cfg) (N_POINTS_Y cfg) 2 vp →
  x < N_POINTS_X cfg → y < N_POINTS_Y cfg → q < 9 →
  (get2 (obstacle_mask cfg) x y = Some true
   ↔ (sqrt (IZR (dist_sq cfg x y)) < IZR (CYLINDER_RADIUS_INDICES cfg))%R)
  ∧ ((sqrt (IZR (dist_sq cfg x y)) = IZR (CYLINDER_RADIUS_INDICES cfg))%R →
     get2 (obstacle_mask cfg) x y = Some false
     ∧ get3 (post_collision omega (obstacle_mask cfg) vp f1) x y q
       = get3 (collision omega (inlet_field vp f1) (inlet_feq vp f1)) x y q).
Proof.
  intros Hf Hvp Hx Hy Hq.
  pose proof (sqrt_lt_spec (dist_sq cfg x y) (CYLINDER_RADIUS_INDICES cfg)
                (dist_sq_nonneg cfg x y)) as Hspec.
  rewrite get2_obstacle_mask by done.
  split.
  - rewrite <- Hspec. split; [by intros [= ->] | by intros ->].
  - intros Heq.
    assert (Hb : sqrt_lt (dist_sq cfg x y) (CYLINDER_RADIUS_INDICES cfg)
                 = false).
    { destruct (sqrt_lt _ _); [| done].
      pose proof (proj1 Hspec eq_refl). lra. }
    rewrite Hb. split; [done |].
    destruct (get2_post_collision omega (obstacle_mask cfg) vp
                (N_POINTS_X cfg) (N_POINTS_Y cfg) f1 x y false)
      as (cell & s & Hcell & _ & _ & _ & Hpc);
      [done | done | apply shape2_obstacle_mask | lia | |].
    { by rewrite get2_obstacle_mask, Hb. }
    unfold get3. by rewrite Hpc, Hcell.
Qed.

Lemma obstacle_mask_strict_witness :
  let cfg := {| N_POINTS_X := 5; N_POINTS_Y := 9; REYNOLDS_NUMBER := 80;
                MAX_HORIZONTAL_INFLOW_VELOCITY := 0.04 |} in
  (sqrt (IZR (dist_sq cfg 2 4)) = IZR (CYLINDER_RADIUS_INDICES cfg))%R
  ∧ get2 (obstacle_mask cfg) 2 4 = Some false
  ∧ get2 (obstacle_mask cfg) 1 4 = Some true.
Proof.
  intros cfg.
  assert (Hd : (sqrt (IZR (dist_sq cfg 2 4))
                = IZR (CYLINDER_RADIUS_INDICES cfg))%R).
  { change (dist_sq cfg 2 4) with 1%Z.
    change (CYLINDER_RADIUS_INDICES cfg) with 1%Z. exact sqrt_1. }
  split; [exact Hd |]. split; [| reflexivity].
  apply (obstacle_mask_strict cfg (Q2Qc (3 # 2)) (sample_profile 5 9 0.04)
           (sample_field 5 9) 2 4 0);
    [shape_tac | shape_tac | simpl; lia | simpl; lia | lia | exact Hd].
Defined.

(** ** Shape of the setup arrays *)

Lemma shape2_replicate {A} nx ny (v : A) :
  shape2 nx ny (replicate nx (replicate ny v)).
Proof.
  split; [by rewrite length_replicate |].
  apply Forall_replicate. by rewrite length_replicate.
Qed.

Lemma shape3_replicate {A} nx ny nq (c : list A) :
  length c = nq → shape3 nx ny nq (replicate nx (replicate ny c)).
Proof.
  intros Hc. split; [by rewrite length_replicate |].
  apply Forall_replicate. split; [by rewrite length_replicate |].
  by apply Forall_replicate.
Qed.

Lemma velocity_profile_uniform cfg :
  velocity_profile cfg
  = replicate (N_POINTS_X cfg)
      (replicate (N_POINTS_Y cfg)
         [Q2Qc (SF2Q (inflow_speed cfg)); Q2Qc 0]).
Proof. unfold velocity_profile. by rewrite !fmap_replicate. Qed.

Lemma shape3_velocity_profile cfg :
  shape3 (N_POINTS_X cfg) (N_POINTS_Y cfg) 2 (velocity_profile cfg).
Proof. rewrite velocity_profile_uniform. by apply shape3_replicate. Qed.

Lemma shape3_initial_field cfg :
  shape3 (N_POINTS_X cfg) (N_POINTS_Y cfg) 9 (initial_field cfg).
Proof.
  unfold initial_field.
  eapply shape3_get_equilibrium;
    [apply shape3_velocity_profile | apply shape2_replicate].
Qed.

(** ** The relaxation frequency *)

(** The frequency of the shipped constants, [1.9704433497536948]. *)
Example relaxation_omega_reference :
  relaxation_omega reference_config
  = Some (S754_finite false 8874087935705412 (-52)).
Proof. vm_compute. reflexivity. Qed.

(** Positive constants do not keep the frequency below 2: with a Reynolds
    number of [10^17] the viscosity is positive and the binary64 frequency
    is 2 exactly. *)
Example relaxation_omega_two :
  relaxation_omega {| N_POINTS_X := 300; N_POINTS_Y := 50;
                      REYNOLDS_NUMBER := 10 ^ 17;
                      MAX_HORIZONTAL_INFLOW_VELOCITY := 0.04 |}
  = Some (b64_of_Z 2).
Proof. vm_compute. reflexivity. Qed.

(** The divisor of line 50 can round to zero for a viscosity different
    from [-1/6]: with [U = 0.16666666666666669], [R = 1] and [Re = -1] the
    viscosity is [-U], and the second division raises. *)
Example relaxation_omega_rounded_divisor :
  let cfg := {| N_POINTS_X := 300; N_POINTS_Y := 9; REYNOLDS_NUMBER := -1;
                MAX_HORIZONTAL_INFLOW_VELOCITY := 0.16666666666666669 |} in
  relaxation_nu cfg = Some (S754_finite true 6004799503160662 (-55))
  ∧ ¬ (SF2Q (S754_finite true 6004799503160662 (-55)) == - (1 # 6))%Q
  ∧ relaxation_omega cfg = None.
Proof.
  split; [vm_compute; reflexivity |].
  split; [by vm_compute | vm_compute; reflexivity].
Qed.

(** On a grid of positive width the time loop is the iterated [update]. *)
Lemma time_loop_iter (cfg : config) (omega : Qc) (n : nat)
    (f : list (list (list Qc))) :
  0 < N_POINTS_X cfg → shape3 (N_POINTS_X cfg) (N_POINTS_Y cfg) 9 f →
  time_loop cfg omega n f
  = Some (Nat.iter n
            (update omega (obstacle_mask cfg) (velocity_profile cfg)) f).
Proof.
  intros Hnx. revert f. induction n as [| n IH]; intros f Hf; [done |].
  cbn [time_loop]. unfold checked_update.
  rewrite decide_False by (destruct Hf as [-> _]; lia).
  cbn [mbind option_bind]. rewrite IH, <- Nat.iter_succ_r; [done |].
  apply shape3_update;
    [done | apply shape3_velocity_profile | apply shape2_obstacle_mask | done].
Qed.

(** [main] hands whatever finite frequency setup produced to the time
    loop. *)
Lemma main_unchecked (cfg : config) (omega : spec_float) (n : nat) :
  relaxation_omega cfg = Some omega →
  is_finite (inflow_speed cfg) = true → is_finite omega = true →
  0 < N_POINTS_X cfg →
  main cfg n
  = Some (Nat.iter n
            (update (Q2Qc (SF2Q omega)) (obstacle_mask cfg)
                    (velocity_profile cfg))
            (initial_field cfg)).
Proof.
  intros Ho HU Hfin Hnx. unfold main. rewrite Ho. cbn [mbind option_bind].
  rewrite HU, Hfin. by apply time_loop_iter, shape3_initial_field.
Qed.

(** Setup has no range check, so "a frequency outside (0, 2) is reported
    before any timestep runs" does not hold: with a negative Reynolds number
    the frequency is [2.0304568527918785 > 2] and the time loop runs. *)
Lemma omega_range_not_checked :
  ¬ (∀ (cfg : config) (omega : spec_float) (n : nat),
       relaxation_omega cfg = Some omega →
       ¬ (0 < SF2Q omega ∧ SF2Q omega < 2)%Q →
       main cfg n = None).
Proof.
  intros Hchk.
  set (cfg := {| N_POINTS_X := 300; N_POINTS_Y := 50; REYNOLDS_NUMBER := -80;
                 MAX_HORIZONTAL_INFLOW_VELOCITY := 0.04 |}).
  set (omega := S754_finite false 4572182362812686 (-51)).
  assert (Ho : relaxation_omega cfg = Some omega)
    by (vm_compute; reflexivity).
  specialize (Hchk cfg omega 1 Ho).
  rewrite (main_unchecked cfg omega 1 Ho) in Hchk;
    [| reflexivity | reflexivity | simpl; lia].
  assert (Hout : ¬ (0 < SF2Q omega ∧ SF2Q omega < 2)%Q).
  { intros [_ Hlt]. vm_compute in Hlt. discriminate. }
  specialize (Hchk Hout). discriminate Hchk.
Qed.

(** C6, amended: the frequency is computed once at setup (lines 49-50) and
    handed to the time loop as it is, no range being checked: whatever
    frequency [omega] setup yields, inside [(0, 2)] or not, the run is [n]
    timesteps with that [omega] (on a grid of positive width and with a
    finite inflow speed and frequency, where the run has values). *)
Theorem omega_setup (cfg : config) (omega : spec_float) (n : nat) :
  relaxation_omega cfg = Some omega →
  is_finite (inflow_speed cfg) = true → is_finite omega = true →
  0 < N_POINTS_X cfg →
  main cfg n
  = Some (Nat.iter n
            (update (Q2Qc (SF2Q omega)) (obstacle_mask cfg)
                    (velocity_profile cfg))
            (initial_field cfg)).
Proof.
  intros Ho HU Hfin Hnx. unfold main. rewrite Ho. cbn [mbind option_bind].
  rewrite HU, Hfin. by apply time_loop_iter, shape3_initial_field.
Qed.

Lemma omega_setup_witness :
  main reference_config 1
  = Some (Nat.iter 1
            (update (Q2Qc (SF2Q (S754_finite false 8874087935705412 (-52))))
                    (obstacle_mask reference_config)
                    (velocity_profile reference_config))
            (initial_field reference_config)).
Proof.
  apply (omega_setup reference_config
           (S754_finite false 8874087935705412 (-52)) 1);
    [vm_compute; reflexivity | reflexivity | reflexivity | simpl; lia].
Defined.

(** * Further properties of the step *)

(** ** Extensionality on well-shaped arrays *)

Lemma shape2_ext {A} nx ny (a b : list (list A)) :
  shape2 nx ny a → shape2 nx ny b →
  (∀ x y, x < nx → y < ny → get2 a x y = get2 b x y) → a = b.
Proof.
  intros Ha Hb Hab. apply list_eq. intros x.
  destruct (decide (x < nx)) as [Hx | Hx].
  - destruct (lookup_lt_is_Some_2 a x) as [ca Hca]; [destruct Ha; lia |].
    destruct (lookup_lt_is_Some_2 b x) as [cb Hcb]; [destruct Hb; lia |].
    rewrite Hca, Hcb. f_equal. apply list_eq. intros y.
    pose proof (shape2_lookup _ _ _ _ _ Ha Hca) as Hla.
    pose proof (shape2_lookup _ _ _ _ _ Hb Hcb) as Hlb.
    destruct (decide (y < ny)) as [Hy | Hy].
    + specialize (Hab x y Hx Hy). unfold get2 in Hab.
      by rewrite Hca, Hcb in Hab.
    + rewrite !lookup_ge_None_2; [done | lia..].
  - destruct Ha, Hb. rewrite !lookup_ge_None_2; [done | lia..].
Qed.

Lemma shape3_ext {A} nx ny nq (f g : list (list (list A))) :
  shape3 nx ny nq f → shape3 nx ny nq g →
  (∀ x y q, x < nx → y < ny → q < nq → get3 f x y q = get3 g x y q) →
  f = g.
Proof.
  intros Hf Hg Hfg.
  apply (shape2_ext nx ny); [by eapply shape3_as_shape2.. |].
  intros x y Hx Hy.
  destruct (shape3_cell _ _ _ _ _ _ Hf Hx Hy) as (cf & Hcf & Hlf).
  destruct (shape3_cell _ _ _ _ _ _ Hg Hx Hy) as (cg & Hcg & Hlg).
  rewrite Hcf, Hcg. f_equal. apply list_eq. intros q.
  destruct (decide (q < nq)) as [Hq | Hq].
  - specialize (Hfg x y q Hx Hy Hq). unfold get3 in Hfg.
    by rewrite Hcf, Hcg in Hfg.
  - rewrite !lookup_ge_None_2; [done | lia..].
Qed.

(** ** The two edge patches together *)

(** The field that enters collision differs from the input of the step only
    in the rightward components of column 0 (equilibrium values) and in the
    leftward components of the last column (copied from its neighbour); on
    a grid of width [nx >= 2] every other entry is the input's. *)
Theorem boundary_patches_frame {num : Type} `{Arith num}
    (vp : list (list (list num))) (nx ny : nat)
    (f : list (list (list num))) (x y q : nat) :
  shape3 nx ny 9 f → shape3 nx ny 2 vp → 2 ≤ nx →
  x < nx → y < ny → q < 9 →
  get3 (inlet_field vp (outflow f)) x y q
  = if decide (x = 0 ∧ q ∈ RIGHT_VELOCITIES)
    then get3 (inlet_feq vp (outflow f)) 0 y q
    else if decide (x = nx - 1 ∧ q ∈ LEFT_VELOCITIES)
         then get3 f (nx - 2) y q
         else get3 f x y q.
Proof.
  intros Hf Hvp Hnx Hx Hy Hq.
  assert (Hf1 : shape3 nx ny 9 (outflow f)) by (apply shape3_outflow; (done || lia)).
  unfold inlet_field, inflow_field.
  rewrite (get3_at_col_set nx ny);
    [| done | apply shape3_inlet_feq; (done || lia) | lia | lia | done].
  destruct (decide (x = 0 ∧ q ∈ RIGHT_VELOCITIES)); [done |].
  unfold outflow. destruct Hf as [Hlen Hcols]. rewrite Hlen.
  rewrite norm_index_last, norm_index_before_last.
  apply (get3_at_col_set nx ny); (by split) || lia.
Qed.

Lemma boundary_patches_frame_witness :
  get3 (inlet_field (sample_profile 3 2 0.04) (outflow (sample_field 3 2)))
       1 1 5
  = get3 (sample_field 3 2) 1 1 5.
Proof.
  apply (boundary_patches_frame (sample_profile 3 2 0.04) 3 2
           (sample_field 3 2) 1 1 5);
    [repeat (split || constructor) | repeat (split || constructor) | lia..].
Defined.

(** The outflow patch is idempotent: patching an already patched field
    changes nothing. *)
Theorem outflow_idempotent {num : Type} `{Arith num}
    (nx ny : nat) (f : list (list (list num))) :
  shape3 nx ny 9 f → 2 ≤ nx → outflow (outflow f) = outflow f.
Proof.
  intros Hf Hnx.
  assert (Hf1 : shape3 nx ny 9 (outflow f)) by (apply shape3_outflow; (done || lia)).
  assert (Hf2 : shape3 nx ny 9 (outflow (outflow f)))
    by (apply shape3_outflow; (done || lia)).
  assert (Hget : ∀ g x y q, shape3 nx ny 9 g → x < nx → y < ny →
            get3 (outflow g) x y q
            = if decide (x = nx - 1 ∧ q ∈ LEFT_VELOCITIES)
              then get3 g (nx - 2) y q else get3 g x y q).
  { intros g x y q Hg Hx Hy. unfold outflow.
    destruct Hg as [Hlen Hcols]. rewrite Hlen.
    rewrite norm_index_last, norm_index_before_last.
    apply (get3_at_col_set nx ny); (by split) || lia. }
  apply (shape3_ext nx ny 9); [done.. |].
  intros x y q Hx Hy Hq.
  rewrite (Hget (outflow f)) by done.
  destruct (decide (x = nx - 1 ∧ q ∈ LEFT_VELOCITIES)) as [[-> Hin] | Hn];
    [| done].
  rewrite (Hget f (nx - 2)), (Hget f (nx - 1)) by (done || lia).
  destruct (decide (nx - 2 = nx - 1 ∧ q ∈ LEFT_VELOCITIES)) as [[? _] | _];
    [lia |].
  destruct (decide (nx - 1 = nx - 1 ∧ q ∈ LEFT_VELOCITIES)) as [_ | Hn];
    [done | by destruct Hn].
Qed.

Lemma outflow_idempotent_witness :
  outflow (outflow (sample_field 3 2)) = outflow (sample_field 3 2).
Proof.
  apply (outflow_idempotent 3 2 (sample_field 3 2));
    [repeat (split || constructor) | lia].
Defined.

(** ** The run as a whole *)

(** Shape invariant of the run: when setup succeeds on a grid of positive
    width, the field after any number of timesteps has shape
    [(N_POINTS_X, N_POINTS_Y, 9)]. *)
Theorem main_shape (cfg : config) (n : nat) (f : list (list (list Qc))) :
  0 < N_POINTS_X cfg → main cfg n = Some f →
  shape3 (N_POINTS_X cfg) (N_POINTS_Y cfg) 9 f.
Proof.
  intros Hnx. unfold main.
  destruct (relaxation_omega cfg) as [omega |]; [| done].
  cbn [mbind option_bind].
  destruct (is_finite (inflow_speed cfg) && is_finite omega); [| done].
  rewrite time_loop_iter by (done || apply shape3_initial_field).
  intros [= <-].
  induction n as [| n IH]; [apply shape3_initial_field |].
  cbn [Nat.iter]. apply shape3_update;
    [done | apply shape3_velocity_profile | apply shape2_obstacle_mask | done].
Qed.

Lemma main_shape_witness :
  let cfg := {| N_POINTS_X := 3; N_POINTS_Y := 3; REYNOLDS_NUMBER := 80;
                MAX_HORIZONTAL_INFLOW_VELOCITY := 0.04 |} in
  ∃ f, main cfg 2 = Some f ∧ shape3 3 3 9 f.
Proof.
  intros cfg.
  assert (Ho : relaxation_omega cfg = Some (b64_of_Z 2))
    by (vm_compute; reflexivity).
  assert (Hnx : 0 < N_POINTS_X cfg) by (simpl; lia).
  eexists. split; [exact (main_unchecked cfg _ 2 Ho eq_refl eq_refl Hnx) |].
  apply (main_shape cfg 2); [exact Hnx |].
  exact (main_unchecked cfg _ 2 Ho eq_refl eq_refl Hnx).
Defined.

(** ** Degenerate obstacle *)

(** A grid lower than 9 rows has cylinder radius [N_POINTS_Y // 9 = 0]: the
    mask is empty and the bounce-back loop leaves the collision result as
    it is. *)
Theorem no_obstacle_on_low_grid {num : Type} `{Arith num}
    (cfg : config) (omega : num) (vp f1 : list (list (list num))) :
  N_POINTS_Y cfg < 9 →
  obstacle_mask cfg
  = replicate (N_POINTS_X cfg) (replicate (N_POINTS_Y cfg) false)
  ∧ post_collision omega (obstacle_mask cfg) vp f1
    = collision omega (inlet_field vp f1) (inlet_feq vp f1).
Proof.
  intros Hny.
  assert (HR : CYLINDER_RADIUS_INDICES cfg = 0%Z).
  { unfold CYLINDER_RADIUS_INDICES. apply Z.div_small. lia. }
  assert (Hm : obstacle_mask cfg
               = replicate (N_POINTS_X cfg) (replicate (N_POINTS_Y cfg) false)).
  { apply (shape2_ext (N_POINTS_X cfg) (N_POINTS_Y cfg));
      [apply shape2_obstacle_mask | apply shape2_replicate |].
    intros x y Hx Hy. rewrite get2_obstacle_mask by done.
    unfold get2. rewrite lookup_replicate_2 by done. cbn [mbind option_bind].
    rewrite lookup_replicate_2 by done. by rewrite HR. }
  split; [done |].
  unfold post_collision. rewrite Hm. apply bounce_back_no_obstacle.
Qed.

Lemma no_obstacle_on_low_grid_witness :
  obstacle_mask {| N_POINTS_X := 4; N_POINTS_Y := 8; REYNOLDS_NUMBER := 80;
                   MAX_HORIZONTAL_INFLOW_VELOCITY := 0.04 |}
  = replicate 4 (replicate 8 false).
Proof.
  apply (no_obstacle_on_low_grid
           {| N_POINTS_X := 4; N_POINTS_Y := 8; REYNOLDS_NUMBER := 80;
              MAX_HORIZONTAL_INFLOW_VELOCITY := 0.04 |}
           (Q2Qc 1) [] []).
  simpl. lia.
Defined.

(** ** One step away from the edge columns *)

Section InteriorFacts.
Context {num : Type} `{Arith num}.
Variable vp : list (list (list num)).
Implicit Types f g : list (list (list num)).

Lemma get2_outflow_other nx ny f x y :
  shape3 nx ny 9 f → x ≠ nx - 1 → get2 (outflow f) x y = get2 f x y.
Proof.
  intros [Hlen _] Hx. unfold outflow. rewrite get2_at_col_set.
  rewrite Hlen, norm_index_last. by rewrite decide_False.
Qed.

Lemma get2_inlet_field_other g x y :
  x ≠ 0 → get2 (inlet_field vp g) x y = get2 g x y.
Proof.
  intros Hx. unfold inlet_field, inflow_field. rewrite get2_at_col_set.
  by rewrite decide_False.
Qed.

(** Off column 0 the equilibrium is the one of the cell's own moments. *)
Lemma get2_inlet_feq_other nx ny g x y :
  shape3 nx ny 9 g → shape3 nx ny 2 vp → 0 < nx → x ≠ 0 →
  get2 (inlet_feq vp g) x y
  = cell ← get2 g x y;
    Some (equilibrium_cell ((λ m, fdiv m (fsum cell)) <$> momentum cell)
                           (fsum cell)).
Proof.
  intros Hg Hvp Hnx Hx. unfold inlet_feq.
  rewrite get2_get_equilibrium, (get2_inlet_u vp nx ny) by done.
  rewrite decide_False by (intros [? _]; done).
  unfold inlet_rho. rewrite get2_inflow_density.
  2:{ unfold get_density. rewrite length_fmap. destruct Hg. lia. }
  rewrite decide_False by done. rewrite get2_get_density.
  by destruct (get2 g x y).
Qed.
End InteriorFacts.

(** The update rule away from the edges.  Entry [(x, y, q)] of the next
    field comes from the cell one lattice step upstream (periodically).  If
    that cell lies off the first and the last column, the entry is the
    cell's opposite component when the cell is an obstacle, and otherwise
    the BGK relaxation [a - omega * (a - feq_q)] of its component [a] towards
    the equilibrium of the cell's own density and velocity. *)
Theorem update_interior {num : Type} `{Arith num}
    (omega : num) (mask : list (list bool)) (vp : list (list (list num)))
    (nx ny : nat) (f : list (list (list num))) (x y q : nat)
    (cell : list num) (b : bool) :
  let x' := Z.to_nat ((Z.of_nat x - lattice_velocity 0 q) mod Z.of_nat nx) in
  let y' := Z.to_nat ((Z.of_nat y - lattice_velocity 1 q) mod Z.of_nat ny) in
  shape3 nx ny 9 f → shape3 nx ny 2 vp → shape2 nx ny mask →
  x < nx → y < ny → q < 9 →
  1 ≤ x' → x' + 1 < nx →
  get2 f x' y' = Some cell → get2 mask x' y' = Some b →
  get3 (update omega mask vp f) x y q
  = if b then cell !! opposite q
    else a ← cell !! q;
         Some (fsub a
                 (fmul omega
                    (fsub a
                       (equilibrium_value
                          (fsum cell) (LATTICE_WEIGHTS !!! q)
                          (proj q ((λ m, fdiv m (fsum cell)) <$> momentum cell))
                          (norm_sq
                             ((λ m, fdiv m (fsum cell)) <$> momentum cell)))))).
Proof.
  intros x' y' Hf Hvp Hm Hx Hy Hq Hx1 Hx2 Hcell Hb.
  assert (Hnx : 0 < nx) by lia.
  assert (Hf1 : shape3 nx ny 9 (outflow f)) by by apply shape3_outflow.
  rewrite update_stages. unfold streaming.
  rewrite (get3_streaming_fold nx ny);
    [| by apply shape3_post_collision | by apply shape3_post_collision
     | done..].
  rewrite decide_True
    by (apply list_elem_of_In, in_seq; unfold N_DISCRETE_VELOCITIES; lia).
  fold x' y'. change (wrap nx x (c_x q)) with x'.
  change (wrap ny y (c_y q)) with y'.
  destruct (get2_post_collision omega mask vp nx ny (outflow f) x' y' b)
    as (cellc & s & Hcellc & Hs & Hlc & Hls & Hpc); [done.. |].
  assert (Hs' : s = cell).
  { rewrite get2_inlet_field_other in Hs by lia.
    rewrite (get2_outflow_other nx ny) in Hs by (done || lia). congruence. }
  subst s. unfold get3. rewrite Hpc. cbn [mbind option_bind].
  destruct b; [by apply lookup_reflect_cell |].
  pose proof (get3_collision omega (inlet_field vp (outflow f))
                (inlet_feq vp (outflow f)) x' y' q) as Hcol.
  unfold get3 in Hcol. rewrite Hcellc, Hs in Hcol. cbn [mbind option_bind] in Hcol.
  rewrite Hcol.
  rewrite (get2_inlet_feq_other vp nx ny) by (done || lia).
  rewrite (get2_outflow_other nx ny) by (done || lia).
  rewrite Hcell. cbn [mbind option_bind].
  unfold equilibrium_cell. rewrite list_lookup_imap.
  destruct (lookup_lt_is_Some_2 (LATTICE_WEIGHTS : list num) q) as [w Hw];
    [done |].
  rewrite (list_lookup_total_correct _ _ _ Hw), Hw.
  by destruct (cell !! q).
Qed.

Lemma update_interior_witness :
  get3 (update (Q2Qc (3 # 2))
          [ [false; false; false]; [false; true; false];
            [false; false; false]; [false; false; false] ]
          (sample_profile 4 3 0.04) (sample_field 4 3)) 2 1 1
  = get3 (sample_field 4 3) 1 1 3.
Proof.
  apply (update_interior (Q2Qc (3 # 2))
           [ [false; false; false]; [false; true; false];
             [false; false; false]; [false; false; false] ]
           (sample_profile 4 3 0.04) 4 3 (sample_field 4 3) 2 1 1
           ((λ q : nat, Q2Qc (inject_Z (Z.of_nat (100 * 1 + 10 * 1 + q + 1))))
              <$> seq 0 9)
           true).
  all: try (repeat (split || constructor); fail).
  all: simpl; lia.
Defined.

(** ** Moments of the equilibrium, in exact arithmetic *)

(** Equations between closed-form [Qc] expressions with rational constants:
    pass to [Q], drop the normalisations, and let [field] compute. *)
Ltac qc_field :=
  apply Qc_is_canon;
  cbn [this Q2Qc Qcplus Qcminus Qcmult Qcdiv Qcopp Qcinv];
  repeat rewrite Qred_correct;
  field.

(** Unfold the solver's cell operations on written-out cells. *)
Ltac cell_ops :=
  cbv [momentum proj norm_sq lattice_vector LATTICE_VELOCITIES
       fmap list_fmap zip_with lookup_total list_lookup_total
       fsum foldl fsq fadd fsub fmul fdiv ofZ ofQ Qc_arith Nat.add].

(** The density of an equilibrium cell is the density it was built from
    times the sum of the stored weights. *)
Lemma equilibrium_density (ux uy r : Qc) :
  fsum (equilibrium_cell [ux; uy] r) = (r * float32_excess)%Qc.
Proof.
  unfold equilibrium_cell. rewrite LATTICE_WEIGHTS_Qc.
  cbn [imap fmap list_fmap].
  unfold equilibrium_value, compose, float32_excess. cell_ops. qc_field.
Qed.

Lemma equilibrium_momentum (ux uy r : Qc) :
  momentum (equilibrium_cell [ux; uy] r)
  = [(r * float32_excess * ux)%Qc; (r * float32_excess * uy)%Qc].
Proof.
  unfold equilibrium_cell. rewrite LATTICE_WEIGHTS_Qc.
  cbn [imap fmap list_fmap].
  unfold equilibrium_value, compose, float32_excess. cell_ops.
  apply (f_equal2 cons); [qc_field |].
  apply (f_equal2 cons); [qc_field | done].
Qed.

(** The velocity of a cell with the moments of an equilibrium. *)
Lemma equilibrium_velocity (ux uy r : Qc) :
  r ≠ Q2Qc 0 →
  (λ m : Qc, fdiv m r) <$> [(r * ux)%Qc; (r * uy)%Qc] = [ux; uy].
Proof.
  intros Hr. cbn [fmap list_fmap fdiv Qc_arith].
  apply (f_equal2 cons); [by field |].
  apply (f_equal2 cons); [by field | done].
Qed.

Lemma scaled_density_nonzero (r : Qc) :
  r ≠ Q2Qc 0 → (r * float32_excess)%Qc ≠ Q2Qc 0.
Proof.
  intros Hr Hz. apply Qcmult_integral in Hz as [Hz | Hz]; [done |].
  revert Hz. apply (bool_decide_unpack _). vm_compute. exact I.
Qed.

Lemma get2_fmap2 {A B} (g : A → B) (a : list (list A)) x y :
  get2 ((λ col : list A, g <$> col) <$> a) x y = g <$> get2 a x y.
Proof.
  unfold get2. rewrite list_lookup_fmap.
  destruct (a !! x); simpl; [| done]. by rewrite list_lookup_fmap.
Qed.

Lemma shape2_fmap2 {A B} nx ny (g : A → B) (a : list (list A)) :
  shape2 nx ny a → shape2 nx ny ((λ col : list A, g <$> col) <$> a).
Proof.
  intros [Hl Hc]. split; [by rewrite length_fmap |].
  apply Forall_fmap. eapply Forall_impl; [exact Hc |].
  intros col Hcol. cbn. by rewrite length_fmap.
Qed.

(** Extracting the macroscopic fields of an equilibrium returns the
    velocity it was built from, and the density it was built from times
    [1 + 2^-27], the sum of the stored weights (the velocity needs a density
    different from 0 to divide by). *)
Theorem equilibrium_moments (nx ny : nat)
    (u : list (list (list Qc))) (rho : list (list Qc)) :
  shape3 nx ny 2 u → shape2 nx ny rho →
  Forall (Forall (λ r : Qc, r ≠ Q2Qc 0)) rho →
  let feq := get_equilibrium_discrete_velocities u rho in
  get_density feq
  = (λ col : list Qc, (λ r : Qc, r * float32_excess)%Qc <$> col) <$> rho
  ∧ get_macroscopic_velocities feq (get_density feq) = u.
Proof.
  intros Hu Hr Hnz feq.
  assert (Hfeq : shape3 nx ny 9 feq) by by eapply shape3_get_equilibrium.
  assert (Hd : get_density feq
               = (λ col : list Qc, (λ r : Qc, r * float32_excess)%Qc <$> col)
                   <$> rho).
  { apply (shape2_ext nx ny);
      [by eapply shape2_get_density | by apply shape2_fmap2 |].
    intros x y Hx Hy. rewrite get2_get_density, get2_fmap2. unfold feq.
    rewrite get2_get_equilibrium.
    destruct (shape3_cell _ _ _ _ _ _ Hu Hx Hy) as (uxy & -> & Hl).
    destruct (shape2_get _ _ _ _ _ Hr Hx Hy) as [r Hrxy]. rewrite Hrxy.
    cbn [mbind option_bind fmap option_fmap option_map].
    explode_list uxy Hl. by rewrite equilibrium_density. }
  split; [done |]. rewrite Hd.
  apply (shape2_ext nx ny).
  - eapply shape3_as_shape2.
    eapply shape3_get_macroscopic_velocities; [done | by apply shape2_fmap2].
  - by eapply shape3_as_shape2.
  - intros x y Hx Hy.
    rewrite get2_get_macroscopic_velocities, get2_fmap2. unfold feq.
    rewrite get2_get_equilibrium.
    destruct (shape3_cell _ _ _ _ _ _ Hu Hx Hy) as (uxy & -> & Hl).
    destruct (shape2_get _ _ _ _ _ Hr Hx Hy) as [r Hrxy]. rewrite Hrxy.
    cbn [mbind option_bind fmap option_fmap option_map].
    assert (Hrnz : r ≠ Q2Qc 0).
    { unfold get2 in Hrxy.
      destruct (rho !! x) as [col |] eqn:Hcol; [| done].
      pose proof (Forall_lookup_1 _ _ _ _ Hnz Hcol) as Hc.
      exact (Forall_lookup_1 _ _ _ _ Hc Hrxy). }
    explode_list uxy Hl.
    rewrite equilibrium_momentum, equilibrium_velocity;
      [done | by apply scaled_density_nonzero].
Qed.

Lemma equilibrium_moments_witness :
  get_density
    (get_equilibrium_discrete_velocities
       (sample_profile 2 2 0.04) (replicate 2 (replicate 2 (Q2Qc 1))))
  = (λ col : list Qc, (λ r : Qc, r * float32_excess)%Qc <$> col)
      <$> replicate 2 (replicate 2 (Q2Qc 1)).
Proof.
  apply (equilibrium_moments 2 2 (sample_profile 2 2 0.04)
           (replicate 2 (replicate 2 (Q2Qc 1))));
    [repeat (split || constructor) | repeat (split || constructor) |].
  apply Forall_replicate, Forall_replicate. discriminate.
Defined.

(** The field the run starts from has density [1 + 2^-27], the sum of the
    stored weights, and the velocity of the inflow profile at every cell. *)
Theorem initial_field_moments (cfg : config) :
  get_density (initial_field cfg)
  = replicate (N_POINTS_X cfg) (replicate (N_POINTS_Y cfg) float32_excess)
  ∧ get_macroscopic_velocities (initial_field cfg)
      (get_density (initial_field cfg))
    = velocity_profile cfg.
Proof.
  unfold initial_field. rewrite velocity_profile_uniform.
  rewrite get_equilibrium_uniform, get_density_uniform, equilibrium_density.
  change (Q2Qc 1) with 1%Qc. rewrite Qcmult_1_l.
  split; [done |].
  rewrite get_macroscopic_velocities_uniform, equilibrium_momentum.
  rewrite !Qcmult_1_l. rewrite equilibrium_velocity; [done |].
  apply (bool_decide_unpack _). vm_compute. exact I.
Qed.

(** ** Moments under collision and bounce-back *)

Lemma get2_collision {num : Type} `{Arith num} (omega : num)
    (f feq : list (list (list num))) x y :
  get2 (collision omega f feq) x y
  = s ← get2 f x y; e ← get2 feq x y;
    Some (zip_with (λ a b, fsub a (fmul omega (fsub a b))) s e).
Proof. apply get2_zip_with2. Qed.

Lemma collide_cell_density (omega : Qc) (s e : list Qc) :
  length s = 9 → length e = 9 →
  fsum (zip_with (λ a b : Qc, fsub a (fmul omega (fsub a b))) s e)
  = (fsum s - omega * (fsum s - fsum e))%Qc.
Proof.
  intros Hs He. explode_list s Hs. explode_list e He.
  cell_ops. qc_field.
Qed.

Lemma collide_cell_momentum (omega : Qc) (s e : list Qc) :
  length s = 9 → length e = 9 →
  momentum (zip_with (λ a b : Qc, fsub a (fmul omega (fsub a b))) s e)
  = zip_with (λ m me : Qc, m - omega * (m - me))%Qc (momentum s) (momentum e).
Proof.
  intros Hs He. explode_list s Hs. explode_list e He.
  cell_ops.
  apply (f_equal2 cons); [qc_field |].
  apply (f_equal2 cons); [qc_field | done].
Qed.

(** A reflected cell has the density of the cell it reflects and the
    opposite momentum. *)
Lemma reflect_cell_moments (cell s : list Qc) :
  length cell = 9 → length s = 9 →
  let cell' :=
    foldl (λ c i,
             <[LATTICE_INDICES !!! i := s !!! (OPPOSITE_LATTICE_INDICES !!! i)]>
               c)
          cell (seq 0 N_DISCRETE_VELOCITIES) in
  fsum cell' = fsum s ∧ momentum cell' = Qcopp <$> momentum s.
Proof.
  intros Hc Hs cell'. subst cell'. explode_list cell Hc. explode_list s Hs.
  cbn [foldl seq N_DISCRETE_VELOCITIES]. cbn. split.
  - cell_ops. qc_field.
  - cell_ops.
    apply (f_equal2 cons); [qc_field |].
    apply (f_equal2 cons); [qc_field | done].
Qed.

(** Off the inlet column, bounce-back keeps the density of a cell and
    reverses its momentum; collision multiplies both the density and the
    momentum of a cell by [1 + omega * 2^-27], the equilibrium it relaxes to
    carrying [1 + 2^-27] times the cell's density and momentum.  (The
    cell's density must differ from 0: the velocity the equilibrium is built
    from divides by it.) *)
Theorem post_collision_moments (omega : Qc) (mask : list (list bool))
    (vp : list (list (list Qc))) (nx ny : nat)
    (f1 : list (list (list Qc))) (x y : nat) (b : bool) (s : list Qc) :
  shape3 nx ny 9 f1 → shape3 nx ny 2 vp → shape2 nx ny mask →
  1 ≤ x → get2 mask x y = Some b →
  get2 (inlet_field vp f1) x y = Some s → fsum s ≠ Q2Qc 0 →
  let k := (1 + omega * (float32_excess - 1))%Qc in
  ∃ cell',
    get2 (post_collision omega mask vp f1) x y = Some cell'
    ∧ fsum cell' = (if b then fsum s else fsum s * k)%Qc
    ∧ momentum cell'
      = if b then Qcopp <$> momentum s
        else (λ m : Qc, m * k)%Qc <$> momentum s.
Proof.
  intros Hf Hvp Hm Hx Hb Hs Hnz k.
  assert (Hnx : 0 < nx).
  { unfold get2 in Hb. destruct (mask !! x) eqn:Hmx; [| done].
    pose proof (lookup_lt_Some _ _ _ Hmx). destruct Hm. lia. }
  destruct (get2_post_collision omega mask vp nx ny f1 x y b Hf Hvp Hm Hnx Hb)
    as (cellc & s' & Hcellc & Hs' & Hlc & Hls & Hpc).
  assert (s' = s) as -> by congruence.
  eexists. split; [exact Hpc |].
  destruct b; [by apply reflect_cell_moments |].
  rewrite get2_collision, Hs in Hcellc. cbn [mbind option_bind] in Hcellc.
  rewrite (get2_inlet_feq_other vp nx ny) in Hcellc by (done || lia).
  rewrite get2_inlet_field_other in Hs by lia.
  rewrite Hs in Hcellc. cbn [mbind option_bind] in Hcellc.
  injection Hcellc as <-.
  set (r := fsum s) in *.
  assert (Hmom : ∃ mx my : Qc, momentum s = [mx; my]) by (by eexists _, _).
  destruct Hmom as (mx & my & Hmom). rewrite Hmom.
  cbn [fmap list_fmap fdiv Qc_arith].
  rewrite collide_cell_density, collide_cell_momentum;
    [| done | unfold equilibrium_cell; by rewrite length_imap
     | done | unfold equilibrium_cell; by rewrite length_imap].
  rewrite equilibrium_density, equilibrium_momentum, Hmom.
  fold r. subst k. split; [ring |]. cbn [zip_with].
  unfold momentum in Hmom. cbn [fmap list_fmap LATTICE_VELOCITIES] in Hmom.
  injection Hmom as Hmx Hmy. rewrite Hmx, Hmy.
  apply (f_equal2 cons); [by field |].
  apply (f_equal2 cons); [by field | done].
Qed.

Lemma post_collision_moments_witness :
  ∃ cell',
    get2 (post_collision (Q2Qc (3 # 2)) sample_mask (sample_profile 3 3 0.04)
            (sample_field 3 3)) 1 1 = Some cell'
    ∧ fsum cell'
      = fsum ((λ q : nat, Q2Qc (inject_Z (Z.of_nat (100 * 1 + 10 * 1 + q + 1))))
                <$> seq 0 9)
    ∧ momentum cell'
      = Qcopp
          <$> momentum
                ((λ q : nat,
                    Q2Qc (inject_Z (Z.of_nat (100 * 1 + 10 * 1 + q + 1))))
                   <$> seq 0 9).
Proof.
  apply (post_collision_moments (Q2Qc (3 # 2)) sample_mask
           (sample_profile 3 3 0.04) 3 3 (sample_field 3 3) 1 1 true).
  all: try (repeat (split || constructor); fail).
  apply (bool_decide_unpack _). vm_compute. exact I.
Defined.

(** ** Streaming moves values, it neither creates nor drops them *)

Lemma roll_Permutation {A} (s : Z) (a : list A) : roll s a ≡ₚ a.
Proof.
  unfold roll. rewrite Permutation_app_comm. by rewrite take_drop.
Qed.

Lemma concat_roll_Permutation {A} (s : Z) (a : list (list A)) :
  concat (roll s a) ≡ₚ concat a.
Proof.
  unfold roll. rewrite concat_app, Permutation_app_comm, <- concat_app.
  by rewrite take_drop.
Qed.

Lemma concat_fmap_roll_Permutation {A} (s : Z) (a : list (list A)) :
  concat ((λ col, roll s col) <$> a) ≡ₚ concat a.
Proof.
  induction a as [| col a IH]; [done |].
  cbn [fmap list_fmap concat]. by rewrite roll_Permutation, IH.
Qed.

Section StreamingValues.
Context {num : Type} `{Arith num}.
Implicit Types f g : list (list (list num)).

Lemma get2_slice_dir_get3 nx ny g x y q :
  shape3 nx ny 9 g → x < nx → y < ny → q < 9 →
  get2 (slice_dir g q) x y = get3 g x y q.
Proof.
  intros Hg Hx Hy Hq. rewrite get2_slice_dir. unfold get3.
  destruct (shape3_cell _ _ _ _ _ _ Hg Hx Hy) as (cell & -> & Hl).
  cbn [fmap option_fmap option_map mbind option_bind].
  symmetry. apply list_lookup_lookup_total_lt. lia.
Qed.

(** The plane of direction [q] after streaming is the rolled plane. *)
Lemma slice_dir_streaming nx ny f q :
  shape3 nx ny 9 f → q < 9 →
  slice_dir (streaming f) q
  = roll2 (lattice_velocity 0 q) (lattice_velocity 1 q) (slice_dir f q).
Proof.
  intros Hf Hq.
  pose proof (shape3_streaming nx ny f Hf) as Hs.
  apply (shape2_ext nx ny).
  - by eapply shape2_slice_dir.
  - by eapply shape2_roll2, shape2_slice_dir.
  - intros x y Hx Hy.
    rewrite (get2_slice_dir_get3 nx ny) by done.
    rewrite (get2_roll2 nx ny) by (done || by eapply shape2_slice_dir).
    rewrite (get2_slice_dir_get3 nx ny) by (done || apply wrap_lt; lia).
    unfold streaming. rewrite (get3_streaming_fold nx ny) by done.
    rewrite decide_True; [done |].
    apply list_elem_of_In, in_seq. unfold N_DISCRETE_VELOCITIES. lia.
Qed.
End StreamingValues.

(** For every direction, the values of that direction over the grid are the
    same before and after streaming, up to their order: streaming neither
    creates nor loses a value, whatever the arithmetic. *)
Theorem streaming_permutes {num : Type} `{Arith num}
    (nx ny : nat) (f : list (list (list num))) (q : nat) :
  shape3 nx ny 9 f → q < 9 →
  concat (slice_dir (streaming f) q) ≡ₚ concat (slice_dir f q).
Proof.
  intros Hf Hq. rewrite (slice_dir_streaming nx ny) by done.
  unfold roll2. by rewrite concat_fmap_roll_Permutation, concat_roll_Permutation.
Qed.

Lemma streaming_permutes_witness :
  concat (slice_dir (streaming (sample_field 2 2)) 5)
  ≡ₚ concat (slice_dir (sample_field 2 2) 5).
Proof.
  apply (streaming_permutes 2 2 (sample_field 2 2) 5);
    [repeat (split || constructor) | lia].
Defined.

(** ** Total mass under streaming, in exact arithmetic *)

Lemma foldl_Qcplus_acc (a : Qc) (l : list Qc) :
  foldl Qcplus a l = (a + foldl Qcplus 0 l)%Qc.
Proof.
  revert a. induction l as [| x l IH]; intros a; cbn [foldl]; [ring |].
  rewrite (IH (a + x)%Qc), (IH (0 + x)%Qc). ring.
Qed.

Lemma fsum_cons (x : Qc) (l : list Qc) : fsum (x :: l) = (x + fsum l)%Qc.
Proof.
  unfold fsum. cbn [foldl fadd Qc_arith].
  change (ofZ 0 : Qc) with 0%Qc.
  rewrite foldl_Qcplus_acc. ring.
Qed.

Lemma fsum_Permutation (l l' : list Qc) : l ≡ₚ l' → fsum l = fsum l'.
Proof.
  induction 1 as [| x l l' _ IH | x y l | l l' l'' _ IH1 _ IH2].
  - done.
  - by rewrite !fsum_cons, IH.
  - rewrite !fsum_cons. ring.
  - by rewrite IH1.
Qed.

Lemma concat_fmap_fmap {A B} (g : A → B) (a : list (list A)) :
  concat ((λ col : list A, g <$> col) <$> a) = g <$> concat a.
Proof.
  induction a as [| col a IH]; [done |].
  cbn [fmap list_fmap concat]. rewrite fmap_app. by f_equal.
Qed.

(** Summing cell by cell or direction by direction gives the same total. *)
Lemma fsum_cells_by_direction (cells : list (list Qc)) :
  Forall (λ c, length c = 9) cells →
  fsum (fsum <$> cells)
  = fsum ((λ q : nat, fsum ((λ c : list Qc, c !!! q) <$> cells)) <$> seq 0 9).
Proof.
  induction 1 as [| c cells Hc _ IH].
  - by apply Qc_is_canon.
  - cbn [fmap list_fmap]. rewrite fsum_cons, IH.
    explode_list c Hc. cbn [seq fmap list_fmap].
    rewrite !fsum_cons.
    cbn [lookup_total list_lookup_total].
    generalize (fsum ((λ c : list Qc, c !!! 0) <$> cells)).
    generalize (fsum ((λ c : list Qc, c !!! 1) <$> cells)).
    generalize (fsum ((λ c : list Qc, c !!! 2) <$> cells)).
    generalize (fsum ((λ c : list Qc, c !!! 3) <$> cells)).
    generalize (fsum ((λ c : list Qc, c !!! 4) <$> cells)).
    generalize (fsum ((λ c : list Qc, c !!! 5) <$> cells)).
    generalize (fsum ((λ c : list Qc, c !!! 6) <$> cells)).
    generalize (fsum ((λ c : list Qc, c !!! 7) <$> cells)).
    generalize (fsum ((λ c : list Qc, c !!! 8) <$> cells)).
    intros. change (fsum (@nil Qc)) with 0%Qc. ring.
Qed.

Lemma shape3_concat_cells {A} nx ny nq (f : list (list (list A))) :
  shape3 nx ny nq f → Forall (λ c, length c = nq) (concat f).
Proof.
  intros [_ Hf]. induction Hf as [| col f [_ Hcol] _ IH]; [done |].
  cbn [concat]. by apply Forall_app_2.
Qed.

Lemma total_by_direction nx ny (f : list (list (list Qc))) :
  shape3 nx ny 9 f →
  fsum (concat (get_density f))
  = fsum ((λ q : nat, fsum (concat (slice_dir f q))) <$> seq 0 9).
Proof.
  intros Hf. unfold get_density, get_density_rows.
  rewrite (concat_fmap_fmap fsum f).
  rewrite fsum_cells_by_direction by by eapply shape3_concat_cells.
  f_equal. apply list_fmap_ext. intros _ q _.
  unfold slice_dir. by rewrite concat_fmap_fmap.
Qed.

(** Streaming conserves the total mass: the sum of the density over the
    grid is the same before and after. *)
Theorem streaming_conserves_mass (nx ny : nat) (f : list (list (list Qc))) :
  shape3 nx ny 9 f →
  fsum (concat (get_density (streaming f))) = fsum (concat (get_density f)).
Proof.
  intros Hf.
  rewrite (total_by_direction nx ny (streaming f))
    by by apply shape3_streaming.
  rewrite (total_by_direction nx ny f) by done.
  f_equal. apply Forall_fmap_ext, Forall_forall.
  intros q Hq%list_elem_of_In%in_seq.
  apply fsum_Permutation.
  rewrite (slice_dir_streaming nx ny) by (done || lia).
  unfold roll2.
  by rewrite concat_fmap_roll_Permutation, concat_roll_Permutation.
Qed.

Lemma streaming_conserves_mass_witness :
  fsum (concat (get_density (streaming (sample_field 2 3))))
  = fsum (concat (get_density (sample_field 2 3))).
Proof.
  apply (streaming_conserves_mass 2 3 (sample_field 2 3)).
  repeat (split || constructor).
Defined.

(** ** Frame files *)

Lemma pretty_N_go_head (x : N) (s : string) :
  (0 < x)%N →
  ∃ c t, pretty_N_go x s = String c t ∧ c ≠ "0"%char.
Proof.
  revert s. induction (N.lt_wf_0 x) as [x _ IH]; intros s Hx.
  rewrite pretty_N_go_step by done.
  assert (x < 10 ∨ 10 ≤ x)%N as [Hlt | Hge] by lia.
  - rewrite N.div_small, pretty_N_go_0 by done.
    rewrite N.mod_small by done.
    eexists _, _. split; [done |].
    intros Hc. apply (pretty_N_char_inj x 0) in Hc; lia.
  - apply IH; [by apply N.div_lt |]. apply N.div_str_pos. lia.
Qed.

(** Decimal digits are never empty and start with ["0"] only for 0. *)
Lemma pretty_nat_head (n : nat) :
  ∃ c t, pretty n = String c t ∧ (c = "0"%char → n = 0 ∧ t = EmptyString).
Proof.
  unfold pretty, pretty_nat, pretty, pretty_N.
  case_decide as Hn.
  - eexists _, _. split; [done |]. intros _. split; [lia | done].
  - destruct (pretty_N_go_head (N.of_nat n) EmptyString) as (c & t & Ht & Hc); [lia |].
    exists c, t. split; [done |]. by intros ->.
Qed.

Lemma zeros_pretty_inj (a b i j : nat) :
  zeros a +:+ pretty i = zeros b +:+ pretty j → i = j.
Proof.
  revert b. induction a as [| a IH]; intros [| b]; cbn [zeros String.append].
  - apply (inj pretty).
  - intros Heq.
    destruct (pretty_nat_head i) as (c & t & Hi & Hc).
    rewrite Hi in Heq. injection Heq as -> Ht.
    destruct Hc as [-> ->]; [done |].
    destruct (pretty_nat_head j) as (c' & t' & Hj & _).
    rewrite Hj in Ht. by destruct b.
  - intros Heq.
    destruct (pretty_nat_head j) as (c & t & Hj & Hc).
    rewrite Hj in Heq. injection Heq as <- Ht.
    destruct Hc as [-> ->]; [done |].
    destruct (pretty_nat_head i) as (c' & t' & Hi & _).
    rewrite Hi in Ht. by destruct a.
  - intros [= Heq]. by apply (IH b).
Qed.

Lemma string_app_length (s t : string) :
  String.length (s +:+ t) = String.length s + String.length t.
Proof.
  induction s as [| c s IH]; [done |].
  change (S (String.length (s +:+ t)) = S (String.length s) + String.length t).
  by rewrite IH.
Qed.

Lemma string_app_inj_r (s1 s2 t : string) : s1 +:+ t = s2 +:+ t → s1 = s2.
Proof.
  revert s2. induction s1 as [| c s1 IH]; intros [| c2 s2] Heq.
  - done.
  - apply (f_equal String.length) in Heq.
    change (String.length t = S (String.length (s2 +:+ t))) in Heq.
    rewrite string_app_length in Heq. lia.
  - apply (f_equal String.length) in Heq.
    change (S (String.length (s1 +:+ t)) = String.length t) in Heq.
    rewrite string_app_length in Heq. lia.
  - injection Heq as -> Heq. f_equal. by apply IH.
Qed.

Lemma frame_path_inj (i j : nat) : frame_path i = frame_path j → i = j.
Proof.
  unfold frame_path. intros Heq.
  apply (inj (String.append "results/frame_")) in Heq.
  apply string_app_inj_r in Heq.
  by apply zeros_pretty_inj in Heq.
Qed.

(** A run never writes the same frame file twice, however long it is: the
    iterations that plot get pairwise different paths. *)
Theorem saved_frames_NoDup (n_iterations : nat) :
  NoDup (saved_frames n_iterations).
Proof.
  unfold saved_frames. apply NoDup_fmap_2_strong.
  - intros i j _ _. apply frame_path_inj.
  - apply NoDup_filter, NoDup_seq.
Qed.

(** Frames are numbered with five digits up to iteration 99999. *)
Example frame_path_5100 : frame_path (51 * 100) = "results/frame_05100.png".
Proof. reflexivity. Qed.

(** ** The vorticity diagnostic *)

Lemma fmap_const_seq {T} (d : T) j n : (λ _ : nat, d) <$> seq j n = replicate n d.
Proof.
  revert j. induction n as [| n IH]; intros j; [done |].
  cbn [seq fmap list_fmap replicate]. f_equal. apply IH.
Qed.

Lemma zip_with_seq {T} (F : nat → nat → T) a b n :
  zip_with F (seq a n) (seq b n) = (λ i, F (a + i) (b + i)) <$> seq 0 n.
Proof.
  revert a b. induction n as [| n IH]; intros a b; [done |].
  cbn [seq zip_with fmap list_fmap]. f_equal; [by rewrite !Nat.add_0_r |].
  rewrite IH, <- (fmap_S_seq 0), <- list_fmap_compose.
  apply list_fmap_ext. intros _ i _. cbn. f_equal; lia.
Qed.

(** On a sequence with constant increment [d] the gradient is [d] at every
    position, the two ends included. *)
Lemma gradient_along_constant {T} (sub : T → T → T) (half by_h : T → T)
    (h : nat → T) (n : nat) (d e : T) :
  2 ≤ n →
  (∀ i, sub (h (S i)) (h i) = d) →
  (∀ i, half (sub (h (S (S i))) (h i)) = d) →
  by_h d = e →
  gradient_along sub half by_h (h <$> seq 0 n) = replicate n e.
Proof.
  intros Hn Hstep Hhalf He. unfold gradient_along.
  rewrite length_fmap, length_seq.
  rewrite <- !fmap_drop, <- !fmap_take, !drop_seq, !take_seq.
  rewrite !zip_with_fmap_l, !zip_with_fmap_r.
  replace (1 `min` (n - 1)) with 1 by lia.
  replace (1 `min` n) with 1 by lia.
  replace ((n - 2) `min` n) with (n - 2) by lia.
  replace (n - (n - 1)) with 1 by lia.
  replace (1 `min` (n - (n - 2))) with 1 by lia.
  assert (E1 : zip_with (λ x z : nat, sub (h x) (h z)) (seq (0 + 1) 1) (seq 0 1)
               = replicate 1 d).
  { cbn. by rewrite Hstep. }
  assert (E2 : half <$> zip_with (λ x z : nat, sub (h x) (h z))
                          (seq (0 + 2) (n - 2)) (seq 0 (n - 2))
               = replicate (n - 2) d).
  { rewrite zip_with_seq, <- list_fmap_compose, <- (fmap_const_seq d 0).
    apply list_fmap_ext. intros _ i _. cbn. apply Hhalf. }
  assert (E3 : zip_with (λ x z : nat, sub (h x) (h z))
                 (seq (0 + (n - 1)) 1) (seq (0 + (n - 2)) 1)
               = replicate 1 d).
  { cbn. replace (n - 1) with (S (n - 2)) by lia. by rewrite Hstep. }
  rewrite E1, E2, E3, <- !replicate_add, fmap_replicate, He.
  f_equal. lia.
Qed.

Lemma slice_dir_grid (nx ny : nat) (U V : nat → nat → Qc) :
  slice_dir (grid nx ny (λ x y, [U x y; V x y])) 0 = grid nx ny U
  ∧ slice_dir (grid nx ny (λ x y, [U x y; V x y])) 1 = grid nx ny V.
Proof.
  unfold slice_dir, grid. split.
  - rewrite <- list_fmap_compose. apply list_fmap_ext. intros _ x _.
    cbn [compose]. by rewrite <- list_fmap_compose.
  - rewrite <- list_fmap_compose. apply list_fmap_ext. intros _ x _.
    cbn [compose]. by rewrite <- list_fmap_compose.
Qed.

Lemma gradient_grid (nx ny : nat) (W : nat → nat → Qc) (dx dy : Qc) :
  2 ≤ nx → 2 ≤ ny →
  (∀ x y, W (S x) y = (W x y + dx)%Qc) →
  (∀ x y, W x (S y) = (W x y + dy)%Qc) →
  gradient (grid nx ny W)
  = Some (replicate nx (replicate ny dx), replicate nx (replicate ny dy)).
Proof.
  intros Hnx Hny Hx Hy.
  assert (Hby : ∀ d : Qc, fdiv d (ofQ 1) = d).
  { intros d. cbn [fdiv ofQ Qc_arith]. change (Q2Qc 1) with 1%Qc. by field. }
  assert (Hhalf : ∀ w d : Qc, fmul (fsub (w + d + d)%Qc w) (ofQ 0.5) = d).
  { intros w d. cbn [fmul fsub ofQ Qc_arith]. qc_field. }
  unfold gradient.
  assert (Hg : ∃ col rest, grid nx ny W = col :: rest ∧ length col = ny).
  { destruct nx as [| nx]; [lia |]. unfold grid. cbn [seq fmap list_fmap].
    eexists _, _. split; [done |]. by rewrite length_fmap, length_seq. }
  destruct Hg as (col & rest & Hg & Hcol).
  assert (Hlen : length (grid nx ny W) = nx)
    by (unfold grid; by rewrite length_fmap, length_seq).
  rewrite Hg. rewrite Hg in Hlen. cbv beta iota.
  rewrite decide_False by (rewrite Hlen, Hcol; lia).
  rewrite <- Hg. f_equal. f_equal.
  - unfold grid.
    apply (gradient_along_constant _ _ _
             (λ x : nat, (λ y : nat, W x y) <$> seq 0 ny) nx
             (replicate ny dx)); [done | | |].
    + intros x. rewrite zip_with_fmap_l, zip_with_fmap_r, zip_with_seq.
      rewrite <- (fmap_const_seq dx 0). apply list_fmap_ext. intros _ y _.
      cbn [fsub Qc_arith]. rewrite Hx. ring.
    + intros x. rewrite zip_with_fmap_l, zip_with_fmap_r, zip_with_seq.
      rewrite <- list_fmap_compose, <- (fmap_const_seq dx 0).
      apply list_fmap_ext. intros _ y _. cbn [compose].
      rewrite !Hx. apply Hhalf.
    + rewrite fmap_replicate. by rewrite Hby.
  - unfold grid. rewrite <- list_fmap_compose, <- (fmap_const_seq _ 0).
    apply list_fmap_ext. intros _ x _. cbn [compose].
    apply (gradient_along_constant _ _ _ (λ y : nat, W x y) ny dy);
      [done | | | apply Hby].
    + intros y. cbn [fsub Qc_arith]. rewrite Hy. ring.
    + intros y. rewrite !Hy. apply Hhalf.
Qed.

(** The vorticity diagnostic is exact on velocity fields with constant
    increments [(b, e)] per column and [(c, g)] per row, up to the first and
    last rows and columns: it is [c - e] at every cell.  This is
    [du/dy - dv/dx], the negative of the usual scalar vorticity; a uniform
    flow gives 0. *)
Theorem curl_of_affine (nx ny : nat) (U V : nat → nat → Qc) (b c e g : Qc) :
  2 ≤ nx → 2 ≤ ny →
  (∀ x y, U (S x) y = (U x y + b)%Qc) → (∀ x y, U x (S y) = (U x y + c)%Qc) →
  (∀ x y, V (S x) y = (V x y + e)%Qc) → (∀ x y, V x (S y) = (V x y + g)%Qc) →
  curl (grid nx ny (λ x y, [U x y; V x y]))
  = Some (replicate nx (replicate ny (c - e)%Qc)).
Proof.
  intros Hnx Hny HUx HUy HVx HVy. unfold curl.
  destruct (slice_dir_grid nx ny U V) as [-> ->].
  rewrite (gradient_grid nx ny U b c), (gradient_grid nx ny V e g) by done.
  cbn [mbind option_bind fst snd]. by rewrite !zip_with_replicate.
Qed.

Lemma curl_of_affine_witness :
  curl (grid 2 3 (λ _ _, [Q2Qc 0.04; Q2Qc 0]))
  = Some (replicate 2 (replicate 3 (0 - 0)%Qc)).
Proof.
  apply (curl_of_affine 2 3 (λ _ _, Q2Qc 0.04) (λ _ _, Q2Qc 0) 0 0 0 0)%Qc;
    try lia; intros; ring.
Defined.

(** A shear flow [u = (y, 0)] on a [3 x 3] grid: the diagnostic is 1 at
    every cell. *)
Example curl_of_shear :
  curl (grid 3 3 (λ _ y, [Q2Qc (inject_Z (Z.of_nat y)); Q2Qc 0]))
  = Some (replicate 3 (replicate 3 (Q2Qc 1))).
Proof. apply (bool_decide_unpack _). vm_compute. exact I. Qed.
